(** * A shallow embedding of the step-6 interpreter (evaluator and core library)

    The development follows [src/step6_file.ts] (the evaluator [eval_] and
    [eval_ast]) and [src/core.ts] (the table [ns] of native operations).

    JavaScript objects have an identity that [===] observes.  Every Value
    therefore carries the identity [oid] of the object that holds it.  The
    two kinds of object that are mutated after construction (the slot of an
    atom, the bindings of an environment frame) live in an explicit heap;
    all other objects are immutable and are represented by their contents. *)

From Stdlib Require Import ZArith QArith Qround Ascii String Lia.
From stdpp Require Import gmap strings list.

Close Scope Q_scope.
Set Warnings "-register-all".
Local Open Scope string_scope.
Local Open Scope list_scope.

(** ** Numbers *)

(** The payload of an [int] Value is a JavaScript number, a double.  The
    numbers this program can build are integers, the two infinities, the
    negative zero and NaN: the reader yields integers, [+], [-] and [*]
    keep integers integers, and [/] applies [Math.floor] to its quotient.
    [Fin 0] is the positive zero. *)
Inductive Number : Type :=
  | Fin (z : Z)
  | NegZero
  | Infinity (negative : bool)
  | NaN.

Coercion Fin : Z >-> Number.
Bind Scope Z_scope with Number.

(** A double that need not be an integer: the quotient [a / b] before
    [Math.floor].  [Dyadic m e] is the number [m * 2^e], with [m ≠ 0]. *)
Inductive Double : Type :=
  | Dyadic (m e : Z)
  | DZero (negative : bool)
  | DInfinity (negative : bool)
  | DNaN.

Module number.

(** [Number.MAX_SAFE_INTEGER] and [Number.isSafeInteger]: up to 2^53 - 1
    every integer is a double, and the sum, difference or product of two
    doubles is exact whenever it falls in that range. *)
Definition MAX_SAFE_INTEGER : Z := 9007199254740991.

Definition safe_integer (z : Z) : Prop :=
  (- MAX_SAFE_INTEGER <= z <= MAX_SAFE_INTEGER)%Z.

Definition negative (x : Number) : bool :=
  match x with
  | Fin z => Z.ltb z 0
  | NegZero => true
  | Infinity s => s
  | NaN => false
  end.

Definition magnitude (x : Number) : Z :=
  match x with Fin z => Z.abs z | _ => 0%Z end.

Definition is_zero (x : Number) : bool :=
  match x with Fin z => Z.eqb z 0 | NegZero => true | _ => false end.

(** [x + y], [x - y] and [x * y].  On two integers the result is the exact
    integer: that is what the doubles compute as long as the operands and
    the result are safe integers; beyond that range the doubles round to 53
    bits and the model does not follow them.  The special values follow
    IEEE 754: the sign of a zero result, [Infinity - Infinity = NaN],
    [0 * Infinity = NaN]. *)
Definition add (x y : Number) : Number :=
  match x, y with
  | NaN, _ | _, NaN => NaN
  | Infinity s, Infinity s' => if Bool.eqb s s' then Infinity s else NaN
  | Infinity s, _ | _, Infinity s => Infinity s
  | NegZero, NegZero => NegZero
  | NegZero, Fin b => Fin b
  | Fin a, NegZero => Fin a
  | Fin a, Fin b => Fin (a + b)
  end.

Definition sub (x y : Number) : Number :=
  match x, y with
  | NaN, _ | _, NaN => NaN
  | Infinity s, Infinity s' => if Bool.eqb s s' then NaN else Infinity s
  | Infinity s, _ => Infinity s
  | _, Infinity s => Infinity (negb s)
  | NegZero, NegZero => Fin 0
  | NegZero, Fin b => if Z.eqb b 0 then NegZero else Fin (- b)
  | Fin a, NegZero => Fin a
  | Fin a, Fin b => Fin (a - b)
  end.

Definition mul (x y : Number) : Number :=
  match x, y with
  | NaN, _ | _, NaN => NaN
  | Infinity s, _ =>
      if is_zero y then NaN else Infinity (xorb s (negative y))
  | _, Infinity s =>
      if is_zero x then NaN else Infinity (xorb (negative x) s)
  | Fin a, Fin b =>
      if Z.eqb (a * b) 0
      then (if xorb (Z.ltb a 0) (Z.ltb b 0) then NegZero else Fin 0)
      else Fin (a * b)
  | NegZero, Fin b => if Z.ltb b 0 then Fin 0 else NegZero
  | Fin a, NegZero => if Z.ltb a 0 then Fin 0 else NegZero
  | NegZero, NegZero => Fin 0
  end.

(** The order of two numbers; [None] when one of them is NaN, which makes
    every comparison false.  The two zeros are equal. *)
Definition compare (x y : Number) : option comparison :=
  match x, y with
  | NaN, _ | _, NaN => None
  | Infinity s, Infinity s' =>
      Some (if Bool.eqb s s' then Eq else if s then Lt else Gt)
  | Infinity s, _ => Some (if s then Lt else Gt)
  | _, Infinity s => Some (if s then Gt else Lt)
  | Fin a, Fin b => Some (a ?= b)%Z
  | Fin a, NegZero => Some (a ?= 0)%Z
  | NegZero, Fin b => Some (0 ?= b)%Z
  | NegZero, NegZero => Some Eq
  end.

(** [x < y], [x <= y], [x > y], [x >= y] *)
Definition lt (x y : Number) : bool :=
  match compare x y with Some Lt => true | _ => false end.
Definition le (x y : Number) : bool :=
  match compare x y with Some Gt | None => false | _ => true end.
Definition gt (x y : Number) : bool :=
  match compare x y with Some Gt => true | _ => false end.
Definition ge (x y : Number) : bool :=
  match compare x y with Some Lt | None => false | _ => true end.

(** [x === y] on two numbers: NaN differs from every number, itself
    included, and the two zeros are equal. *)
Definition strict_equal (x y : Number) : bool :=
  match x, y with
  | Fin a, Fin b => Z.eqb a b
  | Fin a, NegZero | NegZero, Fin a => Z.eqb a 0
  | NegZero, NegZero => true
  | Infinity s, Infinity s' => Bool.eqb s s'
  | _, _ => false
  end.

(** [a / b] on two positive integers: the double nearest to the exact
    quotient, ties to the even mantissa, as [(m, e)] for [m * 2^e].  The
    exponent [e] is chosen so that the mantissa [m] has 53 bits, and is not
    taken below -1074, where the doubles end. *)
Definition scale (a b e : Z) : Z * Z :=
  if (e <? 0)%Z then (a * 2 ^ (- e), b)%Z else (a, b * 2 ^ e)%Z.

Definition nearest (a b : Z) : Z * Z :=
  let e0 := (Z.log2 a - Z.log2 b - 52)%Z in
  let e1 := if (fst (scale a b e0) / snd (scale a b e0) <? 2 ^ 52)%Z
            then (e0 - 1)%Z else e0 in
  let e := Z.max e1 (-1074) in
  let n := fst (scale a b e) in
  let d := snd (scale a b e) in
  let m := (n / d)%Z in
  let r := (n mod d)%Z in
  let up := (d <? 2 * r)%Z || ((d =? 2 * r)%Z && Z.odd m) in
  (if up then (m + 1)%Z else m, e).

End number.

(** [a / b] on two numbers, and [Math.floor]. *)
Definition quotient (x y : Number) : Double :=
  match x, y with
  | NaN, _ | _, NaN => DNaN
  | Infinity _, Infinity _ => DNaN
  | Infinity s, _ => DInfinity (xorb s (number.negative y))
  | _, Infinity s => DZero (xorb (number.negative x) s)
  | _, _ =>
      let a := number.magnitude x in
      let b := number.magnitude y in
      let s := xorb (number.negative x) (number.negative y) in
      if Z.eqb b 0 then (if Z.eqb a 0 then DNaN else DInfinity s)
      else if Z.eqb a 0 then DZero s
      else
        let (m, e) := number.nearest a b in
        if Z.eqb m 0 then DZero s
        else if (0 <=? e)%Z && (2 ^ 1024 <=? m * 2 ^ e)%Z then DInfinity s
        else Dyadic (if s then (- m)%Z else m) e
  end.

Definition Math_floor (q : Double) : Number :=
  match q with
  | Dyadic m e => Fin (if (e <? 0)%Z then m / 2 ^ (- e) else m * 2 ^ e)
  | DZero s => if s then NegZero else Fin 0
  | DInfinity s => Infinity s
  | DNaN => NaN
  end.

(** ** Values *)

Definition oid := nat.

(** [class Env { data; outer }]: the chain of [outer] links never changes
    after construction, the bindings [data] are stored in the heap under
    the index [frame]. *)
Inductive Env : Type :=
  | EnvRef (frame : nat) (outer : option Env).

Definition frame_of (e : Env) : nat := match e with EnvRef f _ => f end.
Definition outer_of (e : Env) : option Env := match e with EnvRef _ o => o end.

(** [MalType]: one constructor per value of the [type] field.  [Undefined]
    is the JavaScript [undefined] that a variable of static type [MalType]
    holds after an out-of-range array read or a missing argument.  For a
    function, [r] is the identity of the record stored in [value], whose
    [type] is ['native'] or ['mal']. *)
Inductive MalType : Type :=
  | Undefined
  | MalNil (o : oid)
  | MalBool (o : oid) (value : bool)
  | MalInt (o : oid) (value : Number)
  | MalStr (o : oid) (value : string)
  | MalSym (o : oid) (value : string)
  | MalKey (o : oid) (value : string)
  | MalList (o : oid) (value : list MalType)
  | MalVec (o : oid) (value : list MalType)
  | MalMap (o : oid) (value : list (string * MalType))
  | MalAtom (o : oid)
  | MalFnNative (o r : oid) (name : string)
  | MalFnMal (o r : oid) (env : Env) (params ast : MalType).

Inductive Tag : Type :=
  | t_nil | t_bool | t_int | t_str | t_sym | t_key
  | t_list | t_vec | t_map | t_atom | t_fn.

Definition Tag_eqb (x y : Tag) : bool :=
  match x, y with
  | t_nil, t_nil | t_bool, t_bool | t_int, t_int | t_str, t_str
  | t_sym, t_sym | t_key, t_key | t_list, t_list | t_vec, t_vec
  | t_map, t_map | t_atom, t_atom | t_fn, t_fn => true
  | _, _ => false
  end.

(** [v.type]; [None] where the property read itself throws. *)
Definition type_of (v : MalType) : option Tag :=
  match v with
  | Undefined => None
  | MalNil _ => Some t_nil
  | MalBool _ _ => Some t_bool
  | MalInt _ _ => Some t_int
  | MalStr _ _ => Some t_str
  | MalSym _ _ => Some t_sym
  | MalKey _ _ => Some t_key
  | MalList _ _ => Some t_list
  | MalVec _ _ => Some t_vec
  | MalMap _ _ => Some t_map
  | MalAtom _ => Some t_atom
  | MalFnNative _ _ _ | MalFnMal _ _ _ _ _ => Some t_fn
  end.

(** Identity of the object; [None] for [undefined], which is not one. *)
Definition oid_of (v : MalType) : option oid :=
  match v with
  | Undefined => None
  | MalNil o | MalBool o _ | MalInt o _ | MalStr o _ | MalSym o _
  | MalKey o _ | MalList o _ | MalVec o _ | MalMap o _ | MalAtom o
  | MalFnNative o _ _ | MalFnMal o _ _ _ _ => Some o
  end.

(** [x === y] on two references of static type [MalType]. *)
Definition same_object (x y : MalType) : bool :=
  match oid_of x, oid_of y with
  | None, None => true
  | Some i, Some j => Nat.eqb i j
  | _, _ => false
  end.

Definition is_undefined (v : MalType) : bool :=
  match v with Undefined => true | _ => false end.

(** [arr[i]]: an out-of-range read yields [undefined]. *)
Definition at_index (l : list MalType) (i : nat) : MalType :=
  nth i l Undefined.

(** [arr[i]] for a number [i]: the property named by the text of [i],
    which names an element only for an integer from 0 on; the text of the
    negative zero is "0". *)
Definition at_number (l : list MalType) (i : Number) : MalType :=
  match i with
  | Fin z => if Z.ltb z 0 then Undefined else at_index l (Z.to_nat z)
  | NegZero => at_index l 0
  | _ => Undefined
  end.

(** [obj[k]] on a plain object used as a dictionary. *)
Fixpoint prop (m : list (string * MalType)) (k : string) : MalType :=
  match m with
  | [] => Undefined
  | (k', v) :: m' => if String.eqb k' k then v else prop m' k
  end.

(** [k in obj] *)
Definition has_prop (m : list (string * MalType)) (k : string) : bool :=
  existsb (fun kv => String.eqb (fst kv) k) m.

(** [obj[k] = v]: overwrite in place, or append as the newest key. *)
Fixpoint set_prop (m : list (string * MalType)) (k : string) (v : MalType)
  : list (string * MalType) :=
  match m with
  | [] => [(k, v)]
  | (k', v') :: m' =>
      if String.eqb k' k then (k', v) :: m' else (k', v') :: set_prop m' k v
  end.

(** [delete obj[k]] *)
Definition delete_prop (m : list (string * MalType)) (k : string)
  : list (string * MalType) :=
  filter (fun kv => negb (String.eqb (fst kv) k)) m.

(** ** Heap, exceptions and the evaluation monad *)

Record Heap : Type := mkHeap {
  frames : gmap nat (gmap string MalType);
  cells : gmap oid MalType;
  next_frame : nat;
  next_oid : oid
}.

(** What a JavaScript [throw] can carry here: the first five.  The last
    two mark where the model stops short of the program: an operation of
    the reader, the printer or the file system, and the end of the fuel. *)
Inductive Exn : Type :=
  | JsTypeError                      (* property read on [undefined] *)
  | TypeMismatch (expected : string) (* the guards [t.is...] and [t.to...] *)
  | UnboundSymbol (name : string)    (* [Env.get] *)
  | Raised (payload : MalType)       (* [throw] of a Value *)
  | StackExhausted                   (* RangeError: call stack size *)
  | NotEmbedded (name : string)      (* needs the reader, printer or fs *)
  | OutOfFuel.                       (* the bound on the model's work *)

Inductive Res (A : Type) : Type :=
  | Ok (a : A)
  | Throw (e : Exn).
Arguments Ok {A} a.
Arguments Throw {A} e.

Definition M (A : Type) : Type := Heap → Res A * Heap.

Definition ret {A} (a : A) : M A := fun h => (Ok a, h).
Definition throw {A} (e : Exn) : M A := fun h => (Throw e, h).
Definition bind {A B} (m : M A) (k : A → M B) : M B :=
  fun h => match m h with
           | (Ok a, h') => k a h'
           | (Throw e, h') => (Throw e, h')
           end.
Definition lift {A} (r : Res A) : M A := fun h => (r, h).
Definition get_heap : M Heap := fun h => (Ok h, h).

(** [try { m } catch (_) { handler }] *)
Definition try_catch {A} (m : M A) (handler : M A) : M A :=
  fun h => match m h with
           | (Ok a, h') => (Ok a, h')
           | (Throw OutOfFuel, h') => (Throw OutOfFuel, h')
           | (Throw _, h') => handler h'
           end.

Declare Scope mal_scope.
Delimit Scope mal_scope with mal.
Notation "x <~ m ;; k" := (bind m (fun x => k))
  (at level 100, m at next level, right associativity) : mal_scope.
Notation "'run' m ;; k" := (bind m (fun _ => k))
  (at level 100, m at next level, right associativity) : mal_scope.
Local Open Scope mal_scope.

Definition fresh_oid : M oid :=
  fun h => (Ok (next_oid h),
            mkHeap (frames h) (cells h) (next_frame h) (S (next_oid h))).

Definition set_cell (o : oid) (v : MalType) : M unit :=
  fun h => (Ok tt,
            mkHeap (frames h) (<[o := v]> (cells h)) (next_frame h) (next_oid h)).

(** [atom.value]; the slot of an atom object always exists. *)
Definition get_cell (o : oid) : M MalType :=
  fun h => (Ok (default Undefined (cells h !! o)), h).

(** ** The constructors and guards of [types.ts] *)

Module t.

(** Modelled from the spec: [types.ts] is not part of the sources at hand.
    Each constructor builds a new object [{ type, value }] (section 3 of
    the specification lists the variants and their payloads); the payload
    of nil is [null], as the test [cond !== null] in [eval_] shows. *)
Definition nil : M MalType := o <~ fresh_oid ;; ret (MalNil o).
Definition int (n : Number) : M MalType :=
  o <~ fresh_oid ;; ret (MalInt o n).
Definition str (s : string) : M MalType := o <~ fresh_oid ;; ret (MalStr o s).
Definition sym (s : string) : M MalType := o <~ fresh_oid ;; ret (MalSym o s).
Definition key (s : string) : M MalType := o <~ fresh_oid ;; ret (MalKey o s).
Definition vec (xs : Datatypes.list MalType) : M MalType :=
  o <~ fresh_oid ;; ret (MalVec o xs).
Definition atom (v : MalType) : M MalType :=
  o <~ fresh_oid ;; run set_cell o v ;; ret (MalAtom o).
Definition fnNative (name : string) : M MalType :=
  r <~ fresh_oid ;; o <~ fresh_oid ;; ret (MalFnNative o r name).
Definition fn (env : Env) (params ast : MalType) : M MalType :=
  r <~ fresh_oid ;; o <~ fresh_oid ;; ret (MalFnMal o r env params ast).
Definition list (xs : Datatypes.list MalType) : M MalType :=
  o <~ fresh_oid ;; ret (MalList o xs).
Definition bool (b : Datatypes.bool) : M MalType :=
  o <~ fresh_oid ;; ret (MalBool o b).

(** Modelled from the spec: the guards of [types.ts] return their argument
    when it has the expected variant and fail with a type error otherwise
    (section 4.3, last paragraph). *)
Definition mismatch {A} (v : MalType) (expected : string) : Res A :=
  match v with
  | Undefined => Throw JsTypeError
  | _ => Throw (TypeMismatch expected)
  end.

Definition isSym (v : MalType) : Res string :=
  match v with MalSym _ s => Ok s | _ => mismatch v "sym" end.
Definition isList (v : MalType) : Res (Datatypes.list MalType) :=
  match v with MalList _ l => Ok l | _ => mismatch v "list" end.
Definition isListOrVec (v : MalType) : Res (Datatypes.list MalType) :=
  match v with
  | MalList _ l | MalVec _ l => Ok l
  | _ => mismatch v "list or vec"
  end.
Definition isMap (v : MalType) : Res (Datatypes.list (string * MalType)) :=
  match v with MalMap _ m => Ok m | _ => mismatch v "map" end.
Definition isAtom (v : MalType) : Res oid :=
  match v with MalAtom o => Ok o | _ => mismatch v "atom" end.
Definition isFn (v : MalType) : Res MalType :=
  match v with
  | MalFnNative _ _ _ | MalFnMal _ _ _ _ _ => Ok v
  | _ => mismatch v "fn"
  end.
Definition toInt (v : MalType) : Res Number :=
  match v with MalInt _ n => Ok n | _ => mismatch v "int" end.
Definition toStr (v : MalType) : Res string :=
  match v with MalStr _ s => Ok s | _ => mismatch v "str" end.

(** Modelled from the spec: the key of a map entry is the text of a string
    or keyword behind one reserved leading character that tells the two
    apart (section 3, row "map"). *)
Definition mal_to_map_key (v : MalType) : Res string :=
  match v with
  | MalStr _ s => Ok (String "s"%char s)
  | MalKey _ s => Ok (String "k"%char s)
  | _ => mismatch v "str or key"
  end.

Definition map_key_to_mal (k : string) : M MalType :=
  match k with
  | String "k"%char s => key s
  | String _ s => str s
  | EmptyString => str EmptyString
  end.

(** [t.map(obj)] wraps a dictionary, [t.map(args)] builds one from a flat
    array of alternating keys and values. *)
Definition map (m : Datatypes.list (string * MalType)) : M MalType :=
  o <~ fresh_oid ;; ret (MalMap o m).

Fixpoint entries (args : Datatypes.list MalType)
                 (acc : Datatypes.list (string * MalType))
  : Res (Datatypes.list (string * MalType)) :=
  match args with
  | [] => Ok acc
  | k :: rest =>
      match mal_to_map_key k with
      | Throw e => Throw e
      | Ok k' =>
          match rest with
          | [] => Ok (set_prop acc k' Undefined)
          | v :: rest' => entries rest' (set_prop acc k' v)
          end
      end
  end.

Definition map_of_args (args : Datatypes.list MalType) : M MalType :=
  m <~ lift (entries args []) ;; map m.

End t.

(** ** Environments *)

Module envM.

(** Modelled from the spec: [env.ts] is not part of the sources at hand.
    Section 4.1: [init] creates a frame with an optional parent and binds
    the parameters positionally, without checking the argument count (a
    parameter without argument is bound to [undefined], an argument
    without parameter is dropped); [set] writes the current frame only;
    [get] searches the current frame and then each ancestor, and fails
    with an error naming the symbol. *)
Fixpoint bind_params (binds : list string) (args : list MalType)
                     (data : gmap string MalType) : gmap string MalType :=
  match binds with
  | [] => data
  | b :: binds' =>
      bind_params binds' (tl args) (<[b := at_index args 0]> data)
  end.

Definition init (outer : option Env) (binds : list string)
                (args : list MalType) : M Env :=
  fun h =>
    (Ok (EnvRef (next_frame h) outer),
     mkHeap (<[next_frame h := bind_params binds args ∅]> (frames h))
            (cells h) (S (next_frame h)) (next_oid h)).

Definition data (h : Heap) (env : Env) : gmap string MalType :=
  default ∅ (frames h !! frame_of env).

Definition set (env : Env) (sym : string) (value : MalType) : M unit :=
  fun h =>
    (Ok tt,
     mkHeap (<[frame_of env := <[sym := value]> (data h env)]> (frames h))
            (cells h) (next_frame h) (next_oid h)).

Fixpoint find (h : Heap) (env : Env) (sym : string) : option MalType :=
  match data h env !! sym with
  | Some v => Some v
  | None =>
      match env with
      | EnvRef _ (Some outer) => find h outer sym
      | EnvRef _ None => None
      end
  end.

Definition get (env : Env) (sym : string) : M MalType :=
  fun h => match find h env sym with
           | Some v => (Ok v, h)
           | None => (Throw (UnboundSymbol sym), h)
           end.

End envM.

(** ** The core library, [core.ts] *)

Definition FnReg : Type := list MalType → M MalType.

Module core.

(** [a.value === b.value] for two objects of one [type]: booleans and
    strings compare by content, numbers too except that NaN differs from
    itself and the two zeros are equal, [null] equals [null], every
    other payload is a reference and compares by identity: the record of
    a function, the Value held in the slot of an atom.  (The array of a
    sequence and the dictionary of a map belong to one wrapper each.) *)
Definition strict_equal_values (slots : gmap oid MalType) (a b : MalType)
  : bool :=
  match a, b with
  | MalNil _, MalNil _ => true
  | MalBool _ x, MalBool _ y => Bool.eqb x y
  | MalInt _ x, MalInt _ y => number.strict_equal x y
  | MalStr _ x, MalStr _ y => String.eqb x y
  | MalSym _ x, MalSym _ y => String.eqb x y
  | MalKey _ x, MalKey _ y => String.eqb x y
  | MalAtom oa, MalAtom ob =>
      same_object (default Undefined (slots !! oa))
                  (default Undefined (slots !! ob))
  | (MalFnNative _ ra _ | MalFnMal _ ra _ _ _),
    (MalFnNative _ rb _ | MalFnMal _ rb _ _ _) => Nat.eqb ra rb
  | _, _ => same_object a b
  end.

(** The last two statements of [ns['=']]:
    [if (a.type !== b.type) return t.bool(false);
     return t.bool(a.value === b.value);] *)
Definition same_payload (slots : gmap oid MalType) (a b : MalType)
  : Res bool :=
  match type_of a, type_of b with
  | Some ta, Some tb =>
      if negb (Tag_eqb ta tb) then Ok false
      else Ok (strict_equal_values slots a b)
  | _, _ => Throw JsTypeError
  end.

(** The body of [ns['=']] up to the final [t.bool]: the boolean read back
    by [.value] at each recursive call.  The booleans that the recursive
    calls wrap are dropped at once and take no part in the result, so the
    heap is only read (for the slots of atoms).  [a_.every] over an array
    visits the indices in order and stops at the first [false]; over
    [Object.keys(a_)] it visits the entries of [a_] in insertion order,
    where [a_[k]] is the value of the entry itself. *)
Fixpoint equals (slots : gmap oid MalType) (a b : MalType) {struct a}
  : Res bool :=
  let every_index (b_ : list MalType) :=
    fix every (a_ : list MalType) (i : nat) {struct a_} : Res bool :=
      match a_ with
      | [] => Ok true
      | x :: a_' =>
          match equals slots x (at_index b_ i) with
          | Ok true => every a_' (S i)
          | Ok false => Ok false
          | Throw e => Throw e
          end
      end in
  let every_key (b_ : list (string * MalType)) :=
    fix every (a_ : list (string * MalType)) {struct a_} : Res bool :=
      match a_ with
      | [] => Ok true
      | (k, x) :: a_' =>
          match equals slots x (prop b_ k) with
          | Ok true => every a_'
          | Ok false => Ok false
          | Throw e => Throw e
          end
      end in
  match a with
  | Undefined => Throw JsTypeError
  | MalList _ a_ | MalVec _ a_ =>
      match b with
      | Undefined => Throw JsTypeError
      | MalList _ b_ | MalVec _ b_ =>
          if negb (Nat.eqb (length a_) (length b_)) then Ok false
          else every_index b_ a_ 0
      | _ => same_payload slots a b
      end
  | MalMap _ a_ =>
      match b with
      | Undefined => Throw JsTypeError
      | MalMap _ b_ =>
          if negb (Nat.eqb (length a_) (length b_)) then Ok false
          else every_key b_ a_
      | _ => same_payload slots a b
      end
  | _ => same_payload slots a b
  end.

(** The two [every] loops of [equals], as functions of their own. *)
Fixpoint every_index (slots : gmap oid MalType) (b_ a_ : list MalType)
                     (i : nat) : Res bool :=
  match a_ with
  | [] => Ok true
  | x :: a_' =>
      match equals slots x (at_index b_ i) with
      | Ok true => every_index slots b_ a_' (S i)
      | Ok false => Ok false
      | Throw e => Throw e
      end
  end.

Fixpoint every_key (slots : gmap oid MalType)
                   (b_ a_ : list (string * MalType)) : Res bool :=
  match a_ with
  | [] => Ok true
  | (k, x) :: a_' =>
      match equals slots x (prop b_ k) with
      | Ok true => every_key slots b_ a_'
      | Ok false => Ok false
      | Throw e => Throw e
      end
  end.

Fixpoint mapM {A B} (f : A → M B) (l : list A) : M (list B) :=
  match l with
  | [] => ret []
  | x :: l' => y <~ f x ;; ys <~ mapM f l' ;; ret (y :: ys)
  end.

Definition arith (op : Number → Number → Number) : FnReg := fun args =>
  a <~ lift (t.toInt (at_index args 0)) ;;
  b <~ lift (t.toInt (at_index args 1)) ;;
  t.int (op a b).

Definition compare (op : Number → Number → bool) : FnReg := fun args =>
  a <~ lift (t.toInt (at_index args 0)) ;;
  b <~ lift (t.toInt (at_index args 1)) ;;
  t.bool (op a b).

Definition has_type (p : Tag → bool) : FnReg := fun args =>
  match type_of (at_index args 0) with
  | Some ty => t.bool (p ty)
  | None => throw JsTypeError
  end.

Definition is_bool (want : bool) : FnReg := fun args =>
  match at_index args 0 with
  | Undefined => throw JsTypeError
  | MalBool _ b => t.bool (Bool.eqb b want)
  | _ => t.bool false
  end.

Section Table.

(** [t.toFnReg]: the callable behind a function Value.  It needs the
    evaluator (for a closure) and this table (for a native), so the
    evaluator supplies it. *)
Variable toFnReg : MalType → Res FnReg.

Definition ns : list (string * FnReg) := [
  ("throw", fun args => throw (Raised (at_index args 0)));

  ("+", arith number.add);
  ("-", arith number.sub);
  ("*", arith number.mul);
  ("/", fun args =>
     a <~ lift (t.toInt (at_index args 0)) ;;
     b <~ lift (t.toInt (at_index args 1)) ;;
     t.int (Math_floor (quotient a b)));

  ("=", fun args =>
     h <~ get_heap ;;
     r <~ lift (equals (cells h) (at_index args 0) (at_index args 1)) ;;
     t.bool r);

  (">", compare number.gt);
  (">=", compare number.ge);
  ("<", compare number.lt);
  ("<=", compare number.le);

  ("cons", fun args =>
     l <~ lift (t.isListOrVec (at_index args 1)) ;;
     t.list (at_index args 0 :: l));
  ("concat", fun args =>
     ls <~ mapM (fun a => lift (t.isListOrVec a)) args ;;
     t.list (List.concat ls));

  ("list", fun args => t.list args);
  ("list?", has_type (Tag_eqb t_list));
  ("empty?", fun args =>
     l <~ lift (t.isListOrVec (at_index args 0)) ;;
     t.bool (Nat.eqb (length l) 0));
  ("count", fun args =>
     try_catch
       (l <~ lift (t.isListOrVec (at_index args 0)) ;;
        t.int (Z.of_nat (length l)))
       (t.int 0));
  ("nth", fun args =>
     values <~ lift (t.isListOrVec (at_index args 0)) ;;
     i <~ lift (t.toInt (at_index args 1)) ;;
     if number.ge i (Z.of_nat (length values)) then
       e <~ t.str "nth: index out of range" ;; throw (Raised e)
     else ret (at_number values i));
  ("first", fun args =>
     match at_index args 0 with
     | Undefined => throw JsTypeError
     | MalNil _ => t.nil
     | a =>
         values <~ lift (t.isListOrVec a) ;;
         if Nat.eqb (length values) 0 then t.nil
         else ret (at_index values 0)
     end);
  ("rest", fun args =>
     match at_index args 0 with
     | Undefined => throw JsTypeError
     | MalNil _ => t.list []
     | a => values <~ lift (t.isListOrVec a) ;; t.list (tl values)
     end);

  ("apply", fun args =>
     let rest := tl args in
     l <~ lift (t.isListOrVec (List.last rest Undefined)) ;;
     f <~ lift (toFnReg (at_index args 0)) ;;
     f (removelast rest ++ l));
  ("map", fun args =>
     fn_reg <~ lift (toFnReg (at_index args 0)) ;;
     l <~ lift (t.isListOrVec (at_index args 1)) ;;
     ys <~ mapM (fun a => fn_reg [a]) l ;;
     t.list ys);

  ("map?", has_type (Tag_eqb t_map));
  ("hash-map", fun args => t.map_of_args args);
  ("assoc", fun args =>
     old_kvs <~ lift (t.isMap (at_index args 0)) ;;
     new_kvs <~ lift (t.entries (tl args) []) ;;
     run fresh_oid ;;
     t.map (fold_left (fun m kv => set_prop m (fst kv) (snd kv))
                      new_kvs old_kvs));
  ("dissoc", fun args =>
     clone <~ lift (t.isMap (at_index args 0)) ;;
     ks <~ mapM (fun a => lift (t.mal_to_map_key a)) (tl args) ;;
     t.map (fold_left delete_prop ks clone));
  ("get", fun args =>
     match at_index args 0 with
     | Undefined => throw JsTypeError
     | MalNil _ => t.nil
     | m =>
         kvs <~ lift (t.isMap m) ;;
         k <~ lift (t.mal_to_map_key (at_index args 1)) ;;
         match prop kvs k with
         | Undefined => t.nil
         | v => ret v
         end
     end);
  ("contains?", fun args =>
     k <~ lift (t.mal_to_map_key (at_index args 1)) ;;
     kvs <~ lift (t.isMap (at_index args 0)) ;;
     t.bool (has_prop kvs k));
  ("keys", fun args =>
     kvs <~ lift (t.isMap (at_index args 0)) ;;
     ks <~ mapM t.map_key_to_mal (List.map fst kvs) ;;
     t.list ks);
  ("vals", fun args =>
     kvs <~ lift (t.isMap (at_index args 0)) ;;
     t.list (List.map snd kvs));

  ("sequential?",
     has_type (fun ty => Tag_eqb ty t_list || Tag_eqb ty t_vec));

  ("vector?", has_type (Tag_eqb t_vec));
  ("vector", fun args => t.vec args);
  ("vec", fun args =>
     match at_index args 0 with
     | Undefined => throw JsTypeError
     | MalVec o l => ret (MalVec o l)
     | a => l <~ lift (t.isList a) ;; t.vec l
     end);

  ("symbol", fun args =>
     s <~ lift (t.toStr (at_index args 0)) ;; t.sym s);
  ("keyword", fun args =>
     match at_index args 0 with
     | Undefined => throw JsTypeError
     | MalKey o k => ret (MalKey o k)
     | a => s <~ lift (t.toStr a) ;; t.key (String ":"%char s)
     end);

  ("nil?", has_type (Tag_eqb t_nil));
  ("symbol?", has_type (Tag_eqb t_sym));
  ("keyword?", has_type (Tag_eqb t_key));
  ("true?", is_bool true);
  ("false?", is_bool false);

  ("read-string", fun _ => throw (NotEmbedded "reader"));
  ("slurp", fun _ => throw (NotEmbedded "fs"));

  ("pr-str", fun _ => throw (NotEmbedded "printer"));
  ("str", fun _ => throw (NotEmbedded "printer"));
  ("prn", fun _ => throw (NotEmbedded "printer"));
  ("println", fun _ => throw (NotEmbedded "printer"));

  ("atom", fun args => t.atom (at_index args 0));
  ("atom?", has_type (Tag_eqb t_atom));
  ("deref", fun args =>
     a <~ lift (t.isAtom (at_index args 0)) ;; get_cell a);
  ("reset!", fun args =>
     a <~ lift (t.isAtom (at_index args 0)) ;;
     run set_cell a (at_index args 1) ;;
     ret (at_index args 1));
  ("swap!", fun args =>
     a <~ lift (t.isAtom (at_index args 0)) ;;
     fn <~ lift (t.isFn (at_index args 1)) ;;
     oldVal <~ get_cell a ;;
     f <~ lift (toFnReg fn) ;;
     newVal <~ f (oldVal :: skipn 2 args) ;;
     run set_cell a newVal ;;
     ret newVal)
].

(** [ns[name]] *)
Fixpoint lookup_fn (table : list (string * FnReg)) (name : string)
  : option FnReg :=
  match table with
  | [] => None
  | (n, f) :: table' =>
      if String.eqb n name then Some f else lookup_fn table' name
  end.

End Table.

End core.

(** ** The evaluator, [step6_file.ts] *)

Inductive Form : Type := form_def | form_let | form_do | form_if | form_fn.

(** [switch (ast.value[0].value)]: the payload of the head is compared with
    the five names by [===], so only a payload that is a string can match,
    whatever the [type] of the head. *)
Definition special_form (head : MalType) : option Form :=
  match head with
  | MalSym _ s | MalStr _ s | MalKey _ s =>
      if String.eqb s "def!" then Some form_def
      else if String.eqb s "let*" then Some form_let
      else if String.eqb s "do" then Some form_do
      else if String.eqb s "if" then Some form_if
      else if String.eqb s "fn*" then Some form_fn
      else None
  | _ => None
  end.

(** [cond !== false && cond !== null], where [cond] is the payload of the
    evaluated condition. *)
Definition truthy (v : MalType) : bool :=
  match v with
  | MalNil _ => false
  | MalBool _ false => false
  | _ => true
  end.

(** [params.value.map(t.isSym)] *)
Definition param_names (params : MalType) : Res (list string) :=
  match t.isListOrVec params with
  | Throw e => Throw e
  | Ok l =>
      fold_right (fun p acc =>
                    match t.isSym p, acc with
                    | Ok s, Ok ss => Ok (s :: ss)
                    | Throw e, _ => Throw e
                    | _, Throw e => Throw e
                    end) (Ok []) l
  end.

Section Evaluator.

(** One activation of [eval_] called from this one: what [eval_ast], the
    special forms and a closure's [call] use for the expressions that are
    not in tail position. *)
Variable recur : MalType → Env → M MalType.

Definition eval_ast (ast : MalType) (env : Env) : M MalType :=
  match ast with
  | Undefined => throw JsTypeError
  | MalSym _ s => envM.get env s
  | MalList _ l =>
      value <~ core.mapM (fun v => recur v env) l ;; t.list value
  | MalVec _ l =>
      value <~ core.mapM (fun v => recur v env) l ;; t.vec value
  | MalMap _ m =>
      value <~ core.mapM (fun kv => v <~ recur (snd kv) env ;;
                                    ret (fst kv, v)) m ;;
      t.map value
  | _ => ret ast
  end.

(** The loop over [bindings] in the [let*] case. *)
Fixpoint let_bindings (let_env : Env) (bindings : list MalType) : M unit :=
  match bindings with
  | [] => ret tt
  | b :: rest =>
      sym <~ lift (t.isSym b) ;;
      val <~ recur (at_index rest 0) let_env ;;
      run envM.set let_env sym val ;;
      match rest with
      | [] => ret tt
      | _ :: rest' => let_bindings let_env rest'
      end
  end.

(** The loop [for (let i = 1; i < len - 1; i += 1)] of the [do] case. *)
Fixpoint do_effects (env : Env) (exprs : list MalType) : M unit :=
  match exprs with
  | [] => ret tt
  | e :: exprs' => run recur e env ;; do_effects env exprs'
  end.

(** The [call] property of the record that [fn*] builds. *)
Definition closure_call (env : Env) (params ast : MalType) : FnReg :=
  fun args =>
    binds <~ lift (param_names params) ;;
    fn_env <~ envM.init (Some env) binds args ;;
    recur ast fn_env.

End Evaluator.

(** The environment that [build_env] creates and that the native [eval]
    closes over: the first child of the frame of [core_env], which is the
    first frame of the process. *)
Definition repl_env : Env := EnvRef 1 (Some (EnvRef 0 None)).

(** A call of [eval_] from inside an activation of [eval_] takes one more
    frame of the call stack; [depth] counts the frames that are left. *)
Definition nested (eval : nat → MalType → Env → M MalType) (depth : nat)
  : MalType → Env → M MalType :=
  fun ast env =>
    match depth with
    | 0 => throw StackExhausted
    | S depth' => eval depth' ast env
    end.

(** [eval_]: [fuel] bounds the number of loop iterations and calls on any
    path; it is the only part of the model that the program does not have.
    [continue] is the next iteration of [for (;;)], in the same activation;
    [recur] is a call. *)
Fixpoint eval_ (fuel depth : nat) (ast : MalType) (env : Env) {struct fuel}
  : M MalType :=
  match fuel with
  | 0 => throw OutOfFuel
  | S fuel' =>
      let recur := nested (eval_ fuel') depth in
      let continue := eval_ fuel' depth in
      match ast with
      | Undefined => throw JsTypeError
      | MalList _ [] => ret ast
      | MalList _ ((head :: _) as value) =>
          if is_undefined head then throw JsTypeError
          else
            match special_form head with
            | Some form_def =>
                sym <~ lift (t.isSym (at_index value 1)) ;;
                v <~ recur (at_index value 2) env ;;
                run envM.set env sym v ;;
                ret v
            | Some form_let =>
                let_env <~ envM.init (Some env) [] [] ;;
                bindings <~ lift (t.isList (at_index value 1)) ;;
                run let_bindings recur let_env bindings ;;
                continue (at_index value 2) let_env
            | Some form_do =>
                let len := length value in
                run do_effects recur env (firstn (len - 2) (skipn 1 value)) ;;
                continue (at_index value (len - 1)) env
            | Some form_if =>
                cond <~ recur (at_index value 1) env ;;
                if is_undefined cond then throw JsTypeError
                else if truthy cond then continue (at_index value 2) env
                else if is_undefined (at_index value 3) then t.nil
                else continue (at_index value 3) env
            | Some form_fn =>
                run lift (t.isListOrVec (at_index value 1)) ;;
                t.fn env (at_index value 1) (at_index value 2)
            | None =>
                evaled <~ eval_ast recur ast env ;;
                let evaled_value :=
                  match evaled with MalList _ l => l | _ => [] end in
                fn <~ lift (t.isFn (at_index evaled_value 0)) ;;
                let args := skipn 1 evaled_value in
                match fn with
                | MalFnMal _ _ fn_env params body =>
                    binds <~ lift (param_names params) ;;
                    env' <~ envM.init (Some fn_env) binds args ;;
                    continue body env'
                | _ =>
                    f <~ lift (toFnReg fuel' depth fn) ;;
                    f args
                end
            end
      | _ => eval_ast recur ast env
      end
  end

(** [t.toFnReg], and [fn.value.call] for a native: the implementation that
    [core_env] registered under the name, or the function
    [(arg) => eval_(arg, env)] that [build_env] registered as [eval]. *)
with toFnReg (fuel depth : nat) (fn : MalType) {struct fuel} : Res FnReg :=
  match fuel with
  | 0 => Ok (fun _ => throw OutOfFuel)
  | S fuel' =>
      match fn with
      | MalFnNative _ _ name =>
          if String.eqb name "eval" then
            Ok (fun args =>
                  nested (eval_ fuel') depth (at_index args 0) repl_env)
          else
            match core.lookup_fn (core.ns (toFnReg fuel' depth)) name with
            | Some f => Ok f
            | None => Throw (NotEmbedded name)
            end
      | MalFnMal _ _ env params ast =>
          Ok (closure_call (nested (eval_ fuel') depth) env params ast)
      | _ => t.mismatch fn "fn"
      end
  end.

(** ** The reader's output and the root environment *)

(** The shape of a parsed expression, before its objects exist. *)
Inductive Sexp : Type :=
  | s_nil
  | s_bool (b : bool)
  | s_int (n : Z)
  | s_str (s : string)
  | s_sym (s : string)
  | s_key (s : string)
  | s_list (l : list Sexp)
  | s_vec (l : list Sexp).

Module reader.

(** Modelled from the spec: [reader.ts] is not part of the sources at
    hand.  Section 6: the reader turns text into a Value; here it starts
    from the parsed shape and builds one new object per node, the elements
    of a sequence before the sequence itself. *)
Fixpoint read_form (s : Sexp) : M MalType :=
  let read_forms :=
    fix read_forms (l : list Sexp) : M (list MalType) :=
      match l with
      | [] => ret []
      | x :: l' => y <~ read_form x ;; ys <~ read_forms l' ;; ret (y :: ys)
      end in
  match s with
  | s_nil => t.nil
  | s_bool b => t.bool b
  | s_int n => t.int n
  | s_str x => t.str x
  | s_sym x => t.sym x
  | s_key x => t.key x
  | s_list l => xs <~ read_forms l ;; t.list xs
  | s_vec l => xs <~ read_forms l ;; t.vec xs
  end.

End reader.

Definition empty_heap : Heap := mkHeap ∅ ∅ 0 0.

(** [eval_(read(text)!, env)], for the text that parses to [s]. *)
Definition rep (fuel depth : nat) (s : Sexp) (env : Env) : M MalType :=
  ast <~ reader.read_form s ;; eval_ fuel depth ast env.

(** [(def! not (fn* (a) (if a false true)))] *)
Definition not_definition : Sexp :=
  s_list [s_sym "def!"; s_sym "not";
          s_list [s_sym "fn*"; s_list [s_sym "a"];
                  s_list [s_sym "if"; s_sym "a"; s_bool false; s_bool true]]].

(** [core_env()]: every entry of [core.ns] as a native function under its
    name, then the definition of [not]. *)
Definition core_env (fuel depth : nat) : M Env :=
  env <~ envM.init None [] [] ;;
  run core.mapM (fun entry =>
                   name <~ t.sym (fst entry) ;;
                   fn <~ t.fnNative (fst entry) ;;
                   envM.set env (fst entry) fn)
                (core.ns (toFnReg fuel depth)) ;;
  run rep fuel depth not_definition env ;;
  ret env.

(** [(def! load-file
       (fn* (f) (eval (read-string (str "(do " (slurp f) "\nnil)")))))] *)
Definition load_file_definition : Sexp :=
  s_list [s_sym "def!"; s_sym "load-file";
          s_list [s_sym "fn*"; s_list [s_sym "f"];
                  s_list [s_sym "eval";
                          s_list [s_sym "read-string";
                                  s_list [s_sym "str"; s_str "(do ";
                                          s_list [s_sym "slurp"; s_sym "f"];
                                          s_str (String "010"%char "nil)")]]]]].

(** [build_env()]: a child of the frame of [core_env] with [eval] and
    [load-file]. *)
Definition build_env (fuel depth : nat) : M Env :=
  core <~ core_env fuel depth ;;
  env <~ envM.init (Some core) [] [] ;;
  name <~ t.sym "eval" ;;
  fn <~ t.fnNative "eval" ;;
  run envM.set env "eval" fn ;;
  run rep fuel depth load_file_definition env ;;
  ret env.

(** The start of [main]: [*ARGV*] holds the arguments after the first. *)
Definition repl_start (fuel depth : nat) (args : list string) : M Env :=
  repl_env <~ build_env fuel depth ;;
  name <~ t.sym "*ARGV*" ;;
  strs <~ core.mapM t.str (skipn 1 args) ;;
  argv <~ t.list strs ;;
  run envM.set repl_env "*ARGV*" argv ;;
  ret repl_env.

(** [ns[name](...args)] *)
Definition ns_call (toFnReg : MalType → Res FnReg) (name : string) : FnReg :=
  match core.lookup_fn (core.ns toFnReg) name with
  | Some f => f
  | None => fun _ => throw (NotEmbedded name)
  end.

(** The heap after one object has been created. *)
Definition bump (h : Heap) : Heap :=
  mkHeap (frames h) (cells h) (next_frame h) (S (next_oid h)).

(** One expression evaluated in a new root environment, with room for
    [depth] nested activations of [eval_]. *)
Definition run_in_core (fuel depth : nat) (s : Sexp) : Res MalType * Heap :=
  match core_env fuel depth empty_heap with
  | (Ok env, h) => rep fuel depth s env h
  | (Throw e, h) => (Throw e, h)
  end.

(** The root environment and the heap that [core_env] leaves behind. *)
Definition root_env : Env := EnvRef 0 None.
Definition root_heap : Heap := snd (core_env 10 10 empty_heap).

(** The heap at the first prompt of the REPL, started without arguments. *)
Definition repl_heap : Heap := snd (repl_start 10 10 [] empty_heap).

(** [(let* (x 1) (let* (x 2) x))] *)
Definition nested_let : Sexp :=
  s_list [s_sym "let*"; s_list [s_sym "x"; s_int 1];
          s_list [s_sym "let*"; s_list [s_sym "x"; s_int 2]; s_sym "x"]].

(** [(let* (x 1) (do (let* (x 2) x) x))] *)
Definition nested_let_then_outer : Sexp :=
  s_list [s_sym "let*"; s_list [s_sym "x"; s_int 1];
          s_list [s_sym "do";
                  s_list [s_sym "let*"; s_list [s_sym "x"; s_int 2];
                          s_sym "x"];
                  s_sym "x"]].

(** [(let* (v 1 a (atom v) b (atom v)) (list a b (= a b)))] *)
Definition two_atoms_one_value : Sexp :=
  s_list [s_sym "let*";
          s_list [s_sym "v"; s_int 1;
                  s_sym "a"; s_list [s_sym "atom"; s_sym "v"];
                  s_sym "b"; s_list [s_sym "atom"; s_sym "v"]];
          s_list [s_sym "list"; s_sym "a"; s_sym "b";
                  s_list [s_sym "="; s_sym "a"; s_sym "b"]]].








(** A function that calls itself outside tail position:
    [(def! sum-to (fn* (n) (if (= n 0) 0 (+ n (sum-to (- n 1))))))] *)
Definition sum_to_def : Sexp :=
  s_list [s_sym "def!"; s_sym "sum-to";
    s_list [s_sym "fn*"; s_list [s_sym "n"];
      s_list [s_sym "if"; s_list [s_sym "="; s_sym "n"; s_int 0]; s_int 0;
        s_list [s_sym "+"; s_sym "n";
                s_list [s_sym "sum-to";
                        s_list [s_sym "-"; s_sym "n"; s_int 1]]]]]].

Definition sum_to_heap : Heap :=
  snd (rep 10 10 sum_to_def root_env root_heap).

(** ** Iterations of the loop of [eval_] *)





(** ** Values as the program builds them *)

(** The keys of a dictionary are pairwise different. *)
Fixpoint unique_keys (m : list (string * MalType)) : bool :=
  match m with
  | [] => true
  | (k, _) :: m' => negb (has_prop m' k) && unique_keys m'
  end.

(** A Value without [undefined] among its elements and entries, whose maps
    are dictionaries.  The parameters and the body of a closure are not
    looked at: [=] never reads them. *)
Fixpoint well_formed (v : MalType) : bool :=
  match v with
  | Undefined => false
  | MalList _ l | MalVec _ l => forallb well_formed l
  | MalMap _ m =>
      unique_keys m && forallb (fun kv => well_formed (snd kv)) m
  | _ => true
  end.

(** [runs_each f l h ys h']: [f] called on the elements of [l] from left to
    right, each call starting on the heap that the one before has left,
    returns the Values [ys] and leaves [h']. *)
Inductive runs_each (f : MalType → M MalType)
  : list MalType → Heap → list MalType → Heap → Prop :=
  | runs_none h : runs_each f [] h [] h
  | runs_more x l h y h1 ys h2 :
      f x h = (Ok y, h1) →
      runs_each f l h1 ys h2 →
      runs_each f (x :: l) h (y :: ys) h2.

(** Every frame on the chain of [env] was created before the frame
    counter reached [n]. *)
Fixpoint frames_below (n : nat) (env : Env) : Prop :=
  match env with
  | EnvRef f outer =>
      f < n ∧ match outer with
              | Some env' => frames_below n env'
              | None => True
              end
  end.

(** The closure that [core_env] binds to [not], as the evaluation of
    [(def! not (fn* (a) (if a false true)))] leaves it in the root frame. *)
Definition not_params : MalType := MalList 157 [MalSym 156 "a"].

Definition not_body : MalType :=
  MalList 162 [MalSym 158 "if"; MalSym 159 "a"; MalBool 160 false;
               MalBool 161 true].

Definition not_closure : MalType :=
  MalFnMal 166 165 root_env not_params not_body.

(** A Value with no map in it, at any depth of its lists and vectors. *)
Fixpoint no_maps (v : MalType) : bool :=
  match v with
  | MalList _ l | MalVec _ l => forallb no_maps l
  | MalMap _ _ => false
  | _ => true
  end.

(** A Value with no integer whose payload is NaN among its elements and
    entries, at any depth. *)
Fixpoint no_nan (v : MalType) : bool :=
  match v with
  | MalInt _ NaN => false
  | MalList _ l | MalVec _ l => forallb no_nan l
  | MalMap _ m => forallb (fun kv => no_nan (snd kv)) m
  | _ => true
  end.

(** * Properties *)

(** ** Arithmetic *)









(** ** Sequences *)

Lemma at_index_lookup (l : list MalType) (i : nat) (x : MalType) :
  l !! i = Some x → at_index l i = x.
Proof. intros H. unfold at_index. rewrite nth_lookup, H. reflexivity. Qed.

(** On two integers the comparison of numbers is that of [Z]. *)
Lemma ge_integers (a b : Z) : number.ge a b = Z.geb a b.
Proof. reflexivity. Qed.

(** C7: for a list or vector [s] with elements [l] and an integer index
    [i], [(nth s i)] throws the string "nth: index out of range" when
    [i ≥ length l], and returns the element at position [i], counted from
    zero, when [0 ≤ i < length l]. *)
Theorem nth_checks_upper_bound (reg : MalType → Res FnReg) (s : MalType)
    (o oi : oid) (l : list MalType) (i : Z) (h : Heap) :
  s = MalList o l ∨ s = MalVec o l →
  ((Z.of_nat (length l) <= i)%Z →
     ns_call reg "nth" [s; MalInt oi i] h
       = (Throw (Raised (MalStr (next_oid h) "nth: index out of range")),
          bump h))
  ∧ ((0 <= i < Z.of_nat (length l))%Z →
     ∃ x, l !! Z.to_nat i = Some x
          ∧ ns_call reg "nth" [s; MalInt oi i] h = (Ok x, h)).
Proof.
  intros Hs. split.
  - intros Hi. apply Z.geb_le in Hi.
    destruct Hs as [-> | ->]; unfold ns_call; cbn -[number.ge at_number];
      rewrite ge_integers, Hi; reflexivity.
  - intros [Hlo Hhi].
    destruct (lookup_lt_is_Some_2 l (Z.to_nat i)) as [x Hx]; [lia|].
    exists x. split; [exact Hx|].
    assert (Hge : (i >=? Z.of_nat (length l))%Z = false).
    { rewrite Z.geb_leb. apply Z.leb_gt. lia. }
    assert (Hlt : (i <? 0)%Z = false) by (apply Z.ltb_ge; lia).
    destruct Hs as [-> | ->]; unfold ns_call; cbn -[number.ge at_number];
      rewrite ge_integers, Hge; cbn [at_number];
      rewrite Hlt, (at_index_lookup _ _ _ Hx); reflexivity.
Qed.

Lemma nth_checks_upper_bound_witness :
  (ns_call (fun _ => Throw OutOfFuel) "nth"
     [MalList 0 [MalInt 1 10; MalInt 2 20; MalInt 3 30]; MalInt 4 3] empty_heap
   = (Throw (Raised (MalStr 0 "nth: index out of range")), bump empty_heap))
  ∧ (∃ x, [MalInt 1 10; MalInt 2 20; MalInt 3 30] !! Z.to_nat 2 = Some x
          ∧ ns_call (fun _ => Throw OutOfFuel) "nth"
              [MalVec 0 [MalInt 1 10; MalInt 2 20; MalInt 3 30]; MalInt 4 2]
              empty_heap = (Ok x, empty_heap)).
Proof.
  split.
  - apply (nth_checks_upper_bound (fun _ => Throw OutOfFuel)
             (MalList 0 [MalInt 1 10; MalInt 2 20; MalInt 3 30]) 0 4
             [MalInt 1 10; MalInt 2 20; MalInt 3 30] 3 empty_heap).
    + left. reflexivity.
    + simpl. lia.
  - apply (nth_checks_upper_bound (fun _ => Throw OutOfFuel)
             (MalVec 0 [MalInt 1 10; MalInt 2 20; MalInt 3 30]) 0 4
             [MalInt 1 10; MalInt 2 20; MalInt 3 30] 2 empty_heap).
    + right. reflexivity.
    + simpl. lia.
Defined.

(** C8: [(count v)] returns a new integer 0 for every [v] that is neither
    a list nor a vector ([undefined] included), and the number of elements
    for a list and for a vector; it never throws. *)
Theorem count_is_lenient (reg : MalType → Res FnReg) (v : MalType)
    (h : Heap) :
  (∀ o l, v = MalList o l ∨ v = MalVec o l →
     ns_call reg "count" [v] h
       = (Ok (MalInt (next_oid h) (Z.of_nat (length l))), bump h))
  ∧ (type_of v ≠ Some t_list → type_of v ≠ Some t_vec →
     ns_call reg "count" [v] h = (Ok (MalInt (next_oid h) 0), bump h)).
Proof.
  split.
  - intros o l [-> | ->]; reflexivity.
  - intros Hl Hv. destruct v; try reflexivity; simpl in *; congruence.
Qed.

Lemma count_is_lenient_witness :
  ns_call (fun _ => Throw OutOfFuel) "count"
    [MalVec 7 [MalNil 1; MalNil 2]] empty_heap
    = (Ok (MalInt 0 2), bump empty_heap)
  ∧ ns_call (fun _ => Throw OutOfFuel) "count" [MalStr 7 "abc"] empty_heap
    = (Ok (MalInt 0 0), bump empty_heap).
Proof.
  split.
  - apply (proj1 (count_is_lenient (fun _ => Throw OutOfFuel)
                    (MalVec 7 [MalNil 1; MalNil 2]) empty_heap) 7
                 [MalNil 1; MalNil 2]).
    right. reflexivity.
  - apply (proj2 (count_is_lenient (fun _ => Throw OutOfFuel)
                    (MalStr 7 "abc") empty_heap)); discriminate.
Defined.

(** ** Structural equality *)

Section Equality.

Variable slots : gmap oid MalType.

Lemma equals_sequences (a b : MalType) (a_ b_ : list MalType) :
  t.isListOrVec a = Ok a_ → t.isListOrVec b = Ok b_ →
  core.equals slots a b =
    if negb (Nat.eqb (length a_) (length b_)) then Ok false
    else core.every_index slots b_ a_ 0.
Proof.
  assert (Hloop : ∀ xs i,
    (fix every (a_ : list MalType) (i : nat) {struct a_} : Res bool :=
       match a_ with
       | [] => Ok true
       | x :: a_' =>
           match core.equals slots x (at_index b_ i) with
           | Ok true => every a_' (S i)
           | Ok false => Ok false
           | Throw e => Throw e
           end
       end) xs i = core.every_index slots b_ xs i).
  { induction xs as [|x xs IH]; intros i; simpl; [reflexivity|].
    destruct (core.equals slots x (at_index b_ i)) as [[|]|]; auto. }
  intros Ha Hb.
  destruct a; simpl in Ha; try discriminate; injection Ha as <-;
    destruct b; simpl in Hb; try discriminate; injection Hb as <-;
    simpl; rewrite Hloop; reflexivity.
Qed.

Lemma equals_maps (oa ob : oid) (a_ b_ : list (string * MalType)) :
  core.equals slots (MalMap oa a_) (MalMap ob b_) =
    if negb (Nat.eqb (length a_) (length b_)) then Ok false
    else core.every_key slots b_ a_.
Proof.
  assert (Hloop : ∀ xs,
    (fix every (a_ : list (string * MalType)) {struct a_} : Res bool :=
       match a_ with
       | [] => Ok true
       | (k, x) :: a_' =>
           match core.equals slots x (prop b_ k) with
           | Ok true => every a_'
           | Ok false => Ok false
           | Throw e => Throw e
           end
       end) xs = core.every_key slots b_ xs).
  { induction xs as [|[k x] xs IH]; simpl; [reflexivity|].
    destruct (core.equals slots x (prop b_ k)) as [[|]|]; auto. }
  simpl. rewrite Hloop. reflexivity.
Qed.

Lemma every_index_pairwise (pre a_ b_ : list MalType) :
  Forall2 (fun x y => core.equals slots x y = Ok true) a_ b_ →
  core.every_index slots (pre ++ b_) a_ (length pre) = Ok true.
Proof.
  intros H. revert pre. induction H as [|x y a_ b_ Hxy _ IH]; intros pre.
  - reflexivity.
  - simpl. unfold at_index. rewrite nth_middle, Hxy.
    specialize (IH (pre ++ [y])).
    rewrite <- app_assoc, length_app in IH. simpl in IH.
    rewrite Nat.add_1_r in IH. exact IH.
Qed.

Lemma equals_undefined_right (a : MalType) :
  core.equals slots a Undefined = Throw JsTypeError.
Proof.
  destruct a; try reflexivity.
Qed.

Lemma equals_mismatch (a b : MalType) (ta tb : Tag) :
  type_of a = Some ta → type_of b = Some tb → ta ≠ tb →
  ¬ ((ta = t_list ∨ ta = t_vec) ∧ (tb = t_list ∨ tb = t_vec)) →
  core.equals slots a b = Ok false.
Proof.
  intros Ha Hb Hne Hseq.
  destruct a; simpl in Ha; try discriminate; injection Ha as <-;
    destruct b; simpl in Hb; try discriminate; injection Hb as <-;
    try reflexivity; try congruence; exfalso; apply Hseq; auto.
Qed.

End Equality.

Lemma ns_equals (reg : MalType → Res FnReg) (a b : MalType) (h : Heap)
    (r : bool) :
  core.equals (cells h) a b = Ok r →
  ns_call reg "=" [a; b] h = (Ok (MalBool (next_oid h) r), bump h).
Proof.
  intros H. unfold ns_call. cbn. unfold bind, get_heap, lift. cbn.
  rewrite H. reflexivity.
Qed.

(** C4: [=] on a list and a vector (in either order) whose elements are
    pairwise equal under [=] returns true; on two Values of different
    variants, other than a list with a vector, it returns false; so
    [(= (list 1 2 3) (vector 1 2 3))] is true and [(= 1 "1")] is false. *)
Theorem equals_across_variants (reg : MalType → Res FnReg) (h : Heap) :
  (∀ oa ob la lb,
     Forall2 (fun x y => core.equals (cells h) x y = Ok true) la lb →
     ns_call reg "=" [MalList oa la; MalVec ob lb] h
       = (Ok (MalBool (next_oid h) true), bump h)
     ∧ ns_call reg "=" [MalVec oa la; MalList ob lb] h
       = (Ok (MalBool (next_oid h) true), bump h))
  ∧ (∀ a b ta tb,
       type_of a = Some ta → type_of b = Some tb → ta ≠ tb →
       ¬ ((ta = t_list ∨ ta = t_vec) ∧ (tb = t_list ∨ tb = t_vec)) →
       ns_call reg "=" [a; b] h = (Ok (MalBool (next_oid h) false), bump h))
  ∧ (∃ o, fst (run_in_core 10 10
                 (s_list [s_sym "=";
                          s_list [s_sym "list"; s_int 1; s_int 2; s_int 3];
                          s_list [s_sym "vector"; s_int 1; s_int 2; s_int 3]]))
          = Ok (MalBool o true))
  ∧ (∃ o, fst (run_in_core 10 10 (s_list [s_sym "="; s_int 1; s_str "1"]))
          = Ok (MalBool o false)).
Proof.
  split; [|split; [|split]].
  - intros oa ob la lb HF.
    pose proof (Forall2_length _ _ _ HF) as Hlen.
    pose proof (every_index_pairwise (cells h) [] la lb HF) as Hev.
    simpl in Hev.
    split; apply ns_equals.
    + rewrite (equals_sequences _ _ _ la lb) by reflexivity.
      rewrite Hlen, Nat.eqb_refl. exact Hev.
    + rewrite (equals_sequences _ _ _ la lb) by reflexivity.
      rewrite Hlen, Nat.eqb_refl. exact Hev.
  - intros a b ta tb Ha Hb Hne Hseq. apply ns_equals.
    exact (equals_mismatch _ a b ta tb Ha Hb Hne Hseq).
  - eexists. vm_compute. reflexivity.
  - eexists. vm_compute. reflexivity.
Qed.

Lemma equals_across_variants_witness :
  ns_call (fun _ => Throw OutOfFuel) "="
    [MalList 0 [MalInt 1 5; MalStr 2 "x"]; MalVec 3 [MalInt 4 5; MalStr 5 "x"]]
    empty_heap = (Ok (MalBool 0 true), bump empty_heap)
  ∧ ns_call (fun _ => Throw OutOfFuel) "=" [MalInt 0 1; MalStr 1 "1"]
      empty_heap = (Ok (MalBool 0 false), bump empty_heap).
Proof.
  split.
  - apply (proj1 (equals_across_variants (fun _ => Throw OutOfFuel) empty_heap)
             0 3 [MalInt 1 5; MalStr 2 "x"] [MalInt 4 5; MalStr 5 "x"]).
    repeat constructor.
  - apply (proj1 (proj2 (equals_across_variants (fun _ => Throw OutOfFuel)
                           empty_heap))
             (MalInt 0 1) (MalStr 1 "1") t_int t_str);
      [reflexivity | reflexivity | discriminate | ].
    intros [[H|H] _]; discriminate.
Defined.

(** C1: on the two one-entry maps [{"a" 1}] and [{"b" 1}] the primitive [=]
    reads the missing entry [b_["a"]], which is [undefined], and the
    recursive call throws on [b.type]: [=] fails on two maps that have as
    many keys but not the same ones. *)
Theorem equals_fails_on_foreign_key :
  fst (run_in_core 10 10
         (s_list [s_sym "=";
                  s_list [s_sym "hash-map"; s_str "a"; s_int 1];
                  s_list [s_sym "hash-map"; s_str "b"; s_int 1]]))
  = Throw JsTypeError.
Proof. vm_compute. reflexivity. Qed.

(** The same on any two maps with as many entries: as soon as [every]
    reaches a key of [a] that [b] lacks (here the first one), the call
    throws. *)
Lemma equals_maps_foreign_key (slots : gmap oid MalType) (oa ob : oid)
    (k : string) (x : MalType) (a_ b_ : list (string * MalType)) :
  length ((k, x) :: a_) = length b_ →
  prop b_ k = Undefined →
  core.equals slots (MalMap oa ((k, x) :: a_)) (MalMap ob b_)
  = Throw JsTypeError.
Proof.
  intros Hlen Hk. rewrite equals_maps, Hlen, Nat.eqb_refl.
  cbn [negb core.every_key]. rewrite Hk, equals_undefined_right. reflexivity.
Qed.

(** C9: two atoms made by two calls of [atom] on the Value bound to [v] are
    two different objects, and [=] on them returns true: the comparison
    [a.value === b.value] looks at the Value in the two slots, which is one
    and the same object, not at the atoms. *)
Theorem equals_on_atoms_compares_slots :
  ∃ oa ob o o',
    fst (run_in_core 20 10 two_atoms_one_value)
    = Ok (MalList o [MalAtom oa; MalAtom ob; MalBool o' true])
    ∧ oa ≠ ob.
Proof.
  do 4 eexists. split; [vm_compute; reflexivity | discriminate].
Qed.

(** ** The evaluator *)

Lemma get_unbound (env : Env) (sym : string) (h : Heap) :
  envM.find h env sym = None →
  envM.get env sym h = (Throw (UnboundSymbol sym), h).
Proof. intros H. unfold envM.get. rewrite H. reflexivity. Qed.

Lemma get_bound (env : Env) (sym : string) (h : Heap) (v : MalType) :
  envM.find h env sym = Some v → envM.get env sym h = (Ok v, h).
Proof. intros H. unfold envM.get. rewrite H. reflexivity. Qed.

Lemma eval_symbol (fuel depth : nat) (o : oid) (s : string) (env : Env)
    (h : Heap) :
  eval_ (S fuel) depth (MalSym o s) env h = envM.get env s h.
Proof. reflexivity. Qed.

Lemma eval_if_step (fuel depth : nat) (o oi : oid) (c then_ : MalType)
    (rest : list MalType) (env : Env) (h h1 : Heap) (v : MalType) :
  nested (eval_ fuel) depth c env h = (Ok v, h1) →
  is_undefined v = false →
  eval_ (S fuel) depth (MalList o (MalSym oi "if" :: c :: then_ :: rest)) env h
  = if truthy v then eval_ fuel depth then_ env h1
    else if is_undefined (at_index rest 0) then t.nil h1
    else eval_ fuel depth (at_index rest 0) env h1.
Proof.
  intros Hc Hv.
  cbn [eval_ special_form String.eqb Ascii.eqb Bool.eqb at_index nth
       is_undefined].
  unfold bind at 1. cbn [at_index nth]. rewrite Hc, Hv.
  unfold at_index. destruct (truthy v); [reflexivity|].
  destruct (is_undefined (nth 0 rest Undefined)); reflexivity.
Qed.

Lemma eval_let_step (fuel depth : nat) (o o1 o2 os : oid) (s : string)
    (e body : MalType) (rest tail : list MalType) (env : Env) (h h1 : Heap)
    (v : MalType) :
  nested (eval_ fuel) depth e (EnvRef (next_frame h) (Some env))
         (snd (envM.init (Some env) [] [] h)) = (Ok v, h1) →
  eval_ (S fuel) depth
        (MalList o (MalSym o1 "let*" :: MalList o2 (MalSym os s :: e :: rest)
                      :: body :: tail)) env h
  = (run let_bindings (nested (eval_ fuel) depth)
           (EnvRef (next_frame h) (Some env)) rest ;;
     eval_ fuel depth body (EnvRef (next_frame h) (Some env)))
      (snd (envM.set (EnvRef (next_frame h) (Some env)) s v h1)).
Proof.
  intros He.
  cbn [eval_ special_form String.eqb Ascii.eqb Bool.eqb at_index nth
       is_undefined].
  unfold bind at 1. cbn [envM.init].
  unfold bind at 1. cbn [lift t.isList].
  unfold bind at 1. cbn [let_bindings].
  unfold bind at 1. cbn [lift t.isSym].
  unfold bind at 1. cbn [at_index nth].
  cbn [envM.init snd envM.bind_params] in He. cbn [envM.bind_params].
  rewrite He. reflexivity.
Qed.

Lemma eval_do_step (fuel depth : nat) (o od : oid) (e last : MalType)
    (env : Env) (h : Heap) :
  eval_ (S fuel) depth (MalList o [MalSym od "do"; e; last]) env h
  = (run nested (eval_ fuel) depth e env ;; eval_ fuel depth last env) h.
Proof.
  cbn [eval_ special_form String.eqb Ascii.eqb Bool.eqb is_undefined length
       Nat.sub firstn skipn do_effects at_index nth].
  unfold bind, ret.
  destruct (nested (eval_ fuel) depth e env h) as [[?|?] ?]; reflexivity.
Qed.

(** The application of a closure: the last case of the [switch]. *)
Lemma eval_closure_step (fuel depth : nat) (o : oid) (head : MalType)
    (rest : list MalType) (env : Env) (h h1 : Heap) (o' ofn rf : oid)
    (fenv : Env) (params body : MalType) (args : list MalType)
    (binds : list string) :
  is_undefined head = false →
  special_form head = None →
  eval_ast (nested (eval_ fuel) depth) (MalList o (head :: rest)) env h
    = (Ok (MalList o' (MalFnMal ofn rf fenv params body :: args)), h1) →
  param_names params = Ok binds →
  eval_ (S fuel) depth (MalList o (head :: rest)) env h
  = eval_ fuel depth body (EnvRef (next_frame h1) (Some fenv))
          (snd (envM.init (Some fenv) binds args h1)).
Proof.
  intros Hu Hs He Hp.
  cbn [eval_]. rewrite Hu, Hs.
  unfold bind at 1. rewrite He.
  cbn [at_index nth t.isFn lift skipn]. unfold bind at 1.
  cbn [lift skipn]. unfold bind at 1. rewrite Hp. reflexivity.
Qed.

(** The call of a native operation: the same case, other branch. *)
Lemma eval_native_step (fuel depth : nat) (o : oid) (head : MalType)
    (rest : list MalType) (env : Env) (h h1 : Heap) (o' ofn rf : oid)
    (name : string) (args : list MalType) (f : FnReg) :
  is_undefined head = false →
  special_form head = None →
  eval_ast (nested (eval_ fuel) depth) (MalList o (head :: rest)) env h
    = (Ok (MalList o' (MalFnNative ofn rf name :: args)), h1) →
  toFnReg fuel depth (MalFnNative ofn rf name) = Ok f →
  eval_ (S fuel) depth (MalList o (head :: rest)) env h = f args h1.
Proof.
  intros Hu Hs He Hf.
  cbn [eval_]. rewrite Hu, Hs.
  unfold bind at 1. rewrite He.
  cbn [at_index nth t.isFn lift skipn]. unfold bind at 1.
  cbn [lift skipn]. unfold bind at 1. rewrite Hf. reflexivity.
Qed.

(** C10: [(do)] is not nil.  With no body the loop of [do] does nothing and
    the working ast becomes [ast.value[0]], the symbol [do]; the next
    iteration looks it up.  Where no frame of the chain binds [do], as in
    the environment of the REPL (the frame of [build_env] with [eval],
    [load-file] and [*ARGV*] over the frame of [core_env]), the lookup
    fails with the unbound-symbol error for [do]. *)
Theorem do_without_body (fuel depth : nat) (o o' : oid) (env : Env)
    (h : Heap) :
  envM.find h env "do" = None →
  eval_ (S (S fuel)) depth (MalList o [MalSym o' "do"]) env h
    = envM.get env "do" h
  ∧ eval_ (S (S fuel)) depth (MalList o [MalSym o' "do"]) env h
    = (Throw (UnboundSymbol "do"), h)
  ∧ fst (repl_start 10 10 [] empty_heap) = Ok repl_env
  ∧ envM.find repl_heap repl_env "do" = None
  ∧ fst (rep 10 10 (s_list [s_sym "do"]) repl_env repl_heap)
    = Throw (UnboundSymbol "do").
Proof.
  intros H.
  assert (E : eval_ (S (S fuel)) depth (MalList o [MalSym o' "do"]) env h
              = envM.get env "do" h) by reflexivity.
  split; [exact E|]. split; [|split; [|split]].
  - rewrite E. now apply get_unbound.
  - vm_compute. reflexivity.
  - vm_compute. reflexivity.
  - vm_compute. reflexivity.
Qed.

Lemma do_without_body_witness :
  eval_ 2 0 (MalList 1001 [MalSym 1000 "do"]) repl_env repl_heap
  = (Throw (UnboundSymbol "do"), repl_heap).
Proof.
  apply (do_without_body 0 0 1001 1000 repl_env repl_heap).
  vm_compute. reflexivity.
Defined.

(** C6: in [(if cond then else...)], once [cond] has evaluated to a Value
    [v]: when [v] is neither nil nor the boolean false, the loop goes on
    with [then]; when [v] is nil or false and there is no [else], the result
    is a new nil; when [v] is nil or false and [else] is there, the loop goes
    on with [else].  Going on keeps the stack depth of the [if] itself. *)
Theorem if_selects_branch (fuel d : nat) (o oi : oid) (c then_ : MalType)
    (rest : list MalType) (env : Env) (h h1 : Heap) (v : MalType) :
  eval_ fuel d c env h = (Ok v, h1) →
  v ≠ Undefined →
  let ast := MalList o (MalSym oi "if" :: c :: then_ :: rest) in
  ((∀ o', v ≠ MalNil o') → (∀ o', v ≠ MalBool o' false) →
     eval_ (S fuel) (S d) ast env h = eval_ fuel (S d) then_ env h1)
  ∧ ((∃ o', v = MalNil o') ∨ (∃ o', v = MalBool o' false) →
     rest = [] →
     eval_ (S fuel) (S d) ast env h = (Ok (MalNil (next_oid h1)), bump h1))
  ∧ ((∃ o', v = MalNil o') ∨ (∃ o', v = MalBool o' false) →
     ∀ else_ rest', rest = else_ :: rest' → else_ ≠ Undefined →
     eval_ (S fuel) (S d) ast env h = eval_ fuel (S d) else_ env h1).
Proof.
  intros Hc Hv ast.
  assert (E : eval_ (S fuel) (S d) ast env h =
              if truthy v then eval_ fuel (S d) then_ env h1
              else if is_undefined (at_index rest 0) then t.nil h1
              else eval_ fuel (S d) (at_index rest 0) env h1).
  { apply eval_if_step; [exact Hc|]. destruct v; [congruence|reflexivity..]. }
  split; [|split].
  - intros Hnil Hfalse. rewrite E.
    destruct v as [| | ? [|] | | | | | | | | | |]; try reflexivity.
    + exfalso. eapply Hnil. reflexivity.
    + exfalso. eapply Hfalse. reflexivity.
  - intros Hf ->. rewrite E.
    destruct Hf as [[o' ->] | [o' ->]]; reflexivity.
  - intros Hf else_ rest' -> Helse. rewrite E.
    destruct Hf as [[o' ->] | [o' ->]]; cbn;
      destruct else_; try reflexivity; congruence.
Qed.

Lemma if_selects_branch_witness :
  eval_ 3 1 (MalList 5 [MalSym 0 "if"; MalNil 1; MalInt 2 10; MalInt 3 20])
        root_env root_heap
  = eval_ 2 1 (MalInt 3 20) root_env root_heap.
Proof.
  refine (proj2 (proj2
            (if_selects_branch 2 0 5 0 (MalNil 1) (MalInt 2 10) [MalInt 3 20]
               root_env root_heap root_heap (MalNil 1) _ _))
            _ (MalInt 3 20) [] _ _).
  - reflexivity.
  - discriminate.
  - left. exists 1. reflexivity.
  - reflexivity.
  - discriminate.
Defined.

(** ** Frames *)

Lemma set_then_find (env : Env) (sym : string) (v : MalType) (h : Heap) :
  envM.find (snd (envM.set env sym v h)) env sym = Some v.
Proof.
  destruct env as [f outer]. unfold envM.set. cbn.
  unfold envM.data at 1. cbn. rewrite lookup_insert_eq. cbn.
  rewrite lookup_insert_eq. reflexivity.
Qed.

Lemma set_leaves_other_frames (env env' : Env) (sym : string) (v : MalType)
    (h : Heap) :
  frame_of env' ≠ frame_of env →
  envM.data (snd (envM.set env sym v h)) env' = envM.data h env'.
Proof.
  intros Hne. unfold envM.set, envM.data. cbn.
  rewrite lookup_insert_ne by congruence. reflexivity.
Qed.

Lemma nested_let_runs :
  ∃ o' o'',
    fst (rep 10 10 nested_let root_env root_heap) = Ok (MalInt o'' 2)
    ∧ frames (snd (rep 10 10 nested_let root_env root_heap)) !! 1
        ≫= (.!! "x") = Some (MalInt o' 1)
    ∧ frames (snd (rep 10 10 nested_let root_env root_heap)) !! 2
        ≫= (.!! "x") = Some (MalInt o'' 2).
Proof. do 2 eexists. vm_compute. repeat split. Qed.

Lemma nested_let_then_outer_runs :
  ∃ o', fst (rep 10 10 nested_let_then_outer root_env root_heap)
        = Ok (MalInt o' 1).
Proof. eexists. vm_compute. reflexivity. Qed.

(** C5: [(let* (s e rest...) body)] evaluated in [env] creates the frame
    [let_env] whose parent is [env]; [e] is evaluated in [let_env] and [s]
    is bound there at once; the remaining bindings and then [body] run in
    [let_env] on the heap [h2] that holds this binding.  In [h2] a lookup
    of [s] from [let_env] finds the new value whatever [env] binds [s] to,
    and the bindings of every other frame, those of [env] included, are
    what they were.  [(let* (x 1) (let* (x 2) x))] yields 2 and leaves [x]
    bound to 1 in the outer frame, and
    [(let* (x 1) (do (let* (x 2) x) x))] yields 1. *)
Theorem let_binds_in_child_frame (fuel d : nat) (o o1 o2 os : oid)
    (s : string) (e body : MalType) (rest tail : list MalType) (env : Env)
    (h h1 : Heap) (v : MalType) :
  let let_env := EnvRef (next_frame h) (Some env) in
  let h0 := snd (envM.init (Some env) [] [] h) in
  let h2 := snd (envM.set let_env s v h1) in
  let recur := fun a e' => eval_ fuel d a e' in
  frame_of env < next_frame h →
  eval_ fuel d e let_env h0 = (Ok v, h1) →
  eval_ (S fuel) (S d)
        (MalList o (MalSym o1 "let*" :: MalList o2 (MalSym os s :: e :: rest)
                      :: body :: tail)) env h
    = (run let_bindings recur let_env rest ;;
       eval_ fuel (S d) body let_env) h2
  ∧ envM.find h2 let_env s = Some v
  ∧ envM.data h2 env = envM.data h1 env
  ∧ (∀ env', frame_of env' ≠ next_frame h →
             envM.data h2 env' = envM.data h1 env')
  ∧ (∃ o' o'',
       fst (rep 10 10 nested_let root_env root_heap) = Ok (MalInt o'' 2)
       ∧ frames (snd (rep 10 10 nested_let root_env root_heap)) !! 1
           ≫= (.!! "x") = Some (MalInt o' 1)
       ∧ frames (snd (rep 10 10 nested_let root_env root_heap)) !! 2
           ≫= (.!! "x") = Some (MalInt o'' 2))
  ∧ (∃ o', fst (rep 10 10 nested_let_then_outer root_env root_heap)
           = Ok (MalInt o' 1)).
Proof.
  intros let_env h0 h2 recur Hlt He.
  split; [|split; [|split; [|split; [|split]]]].
  - apply eval_let_step. exact He.
  - apply set_then_find.
  - apply set_leaves_other_frames. cbn. lia.
  - intros env' Hne. apply set_leaves_other_frames. exact Hne.
  - exact nested_let_runs.
  - exact nested_let_then_outer_runs.
Qed.

Lemma let_binds_in_child_frame_witness :
  let let_env := EnvRef (next_frame root_heap) (Some root_env) in
  let h0 := snd (envM.init (Some root_env) [] [] root_heap) in
  envM.find (snd (envM.set let_env "x" (MalInt 1001 1) h0)) let_env "x"
  = Some (MalInt 1001 1).
Proof.
  intros let_env h0.
  refine (proj1 (proj2
    (let_binds_in_child_frame 1 0 1005 1000 1003 1002 "x" (MalInt 1001 1)
       (MalSym 1004 "x") [] [] root_env root_heap h0 (MalInt 1001 1) _ _))).
  - vm_compute. lia.
  - reflexivity.
Defined.

(** ** Tail calls *)



Lemma find_here (h : Heap) (env : Env) (s : string) (v : MalType) :
  envM.data h env !! s = Some v → envM.find h env s = Some v.
Proof. intros H. destruct env. cbn [envM.find]. rewrite H. reflexivity. Qed.


Lemma eval_bound_symbol (fuel depth : nat) (o : oid) (s : string) (env : Env)
    (h : Heap) (v : MalType) :
  envM.find h env s = Some v →
  eval_ (S fuel) depth (MalSym o s) env h = (Ok v, h).
Proof. intros H. rewrite eval_symbol. now apply get_bound. Qed.















(** For contrast: [sum-to] calls itself as an argument of [+], outside tail
    position, and needs one more frame of the stack for every call. *)
Lemma non_tail_recursion_uses_stack :
  fst (rep 200 12 (s_list [s_sym "sum-to"; s_int 10]) root_env sum_to_heap)
  = Ok (MalInt 267 55)
  ∧ fst (rep 200 11 (s_list [s_sym "sum-to"; s_int 10]) root_env sum_to_heap)
    = Throw StackExhausted.
Proof. vm_compute. split; reflexivity. Qed.




(** * Further properties of the core library *)

(** ** Structural equality, continued *)

Lemma MalType_nested_ind (P : MalType → Prop) :
  P Undefined →
  (∀ o, P (MalNil o)) →
  (∀ o b, P (MalBool o b)) →
  (∀ o n, P (MalInt o n)) →
  (∀ o s, P (MalStr o s)) →
  (∀ o s, P (MalSym o s)) →
  (∀ o s, P (MalKey o s)) →
  (∀ o l, Forall P l → P (MalList o l)) →
  (∀ o l, Forall P l → P (MalVec o l)) →
  (∀ o m, Forall (fun kv => P (snd kv)) m → P (MalMap o m)) →
  (∀ o, P (MalAtom o)) →
  (∀ o r name, P (MalFnNative o r name)) →
  (∀ o r env params ast, P (MalFnMal o r env params ast)) →
  ∀ v, P v.
Proof.
  intros Hu Hn Hb Hi Hs Hy Hk Hl Hv Hm Ha Hfn Hfm.
  fix IH 1. intros [ | o | o b | o n | o s | o s | o s | o l | o l | o m | o
                   | o r name | o r env params ast ].
  - exact Hu.
  - apply Hn.
  - apply Hb.
  - apply Hi.
  - apply Hs.
  - apply Hy.
  - apply Hk.
  - apply Hl. induction l as [|x l IHl]; constructor; [apply IH | exact IHl].
  - apply Hv. induction l as [|x l IHl]; constructor; [apply IH | exact IHl].
  - apply Hm. induction m as [|[k x] m IHm]; constructor;
      [apply IH | exact IHm].
  - apply Ha.
  - apply Hfn.
  - apply Hfm.
Qed.

Lemma same_object_refl (x : MalType) : same_object x x = true.
Proof.
  unfold same_object. destruct (oid_of x); [apply Nat.eqb_refl | reflexivity].
Qed.

Lemma has_prop_false (m : list (string * MalType)) (k : string) :
  has_prop m k = false → prop m k = Undefined.
Proof.
  induction m as [|[k' x] m IH]; [reflexivity|]. unfold has_prop. cbn.
  destruct (String.eqb k' k); [discriminate|]. exact IH.
Qed.

Lemma has_prop_of_entry (m : list (string * MalType)) (k : string)
    (x : MalType) :
  In (k, x) m → has_prop m k = true.
Proof.
  intros Hin. unfold has_prop. apply existsb_exists. exists (k, x).
  split; [exact Hin | apply String.eqb_refl].
Qed.

Lemma prop_of_entry (m : list (string * MalType)) (k : string)
    (x : MalType) :
  unique_keys m = true → In (k, x) m → prop m k = x.
Proof.
  induction m as [|[k' x'] m IH]; intros Hu Hin; [destruct Hin|].
  cbn in Hu. apply andb_prop in Hu as [Hk Hu]. cbn.
  destruct Hin as [Heq | Hin].
  - injection Heq as -> ->. now rewrite String.eqb_refl.
  - destruct (String.eqb k' k) eqn:E; [|now apply IH].
    apply String.eqb_eq in E. subst k'.
    rewrite (has_prop_of_entry _ _ _ Hin) in Hk. discriminate.
Qed.

Lemma every_key_entries (slots : gmap oid MalType)
    (b_ a_ : list (string * MalType)) :
  (∀ k x, In (k, x) a_ → core.equals slots x (prop b_ k) = Ok true) →
  core.every_key slots b_ a_ = Ok true.
Proof.
  induction a_ as [|[k x] a_ IH]; intros H; [reflexivity|].
  cbn [core.every_key]. rewrite (H k x) by (left; reflexivity).
  apply IH. intros k' x' Hin. apply H. right. exact Hin.
Qed.

Lemma equals_self (slots : gmap oid MalType) (v : MalType) :
  well_formed v = true → no_nan v = true → core.equals slots v v = Ok true.
Proof.
  induction v as [ | o | o b | o n | o s | o s | o s | o l IH | o l IH
                 | o m IH | o | o r name | o r env params ast ]
    using MalType_nested_ind; intros Hw Hn; try discriminate;
    try (cbn; rewrite ?Bool.eqb_reflx, ?Z.eqb_refl, ?String.eqb_refl,
           ?Nat.eqb_refl, ?same_object_refl; reflexivity).
  - destruct n; try discriminate; cbn;
      rewrite ?Z.eqb_refl, ?Bool.eqb_reflx; reflexivity.
  - rewrite (equals_sequences slots _ _ l l) by reflexivity.
    rewrite Nat.eqb_refl. cbn [negb]. cbn [well_formed no_nan] in Hw, Hn.
    apply (every_index_pairwise slots [] l l).
    apply Forall2_same_length_lookup. split; [reflexivity|].
    intros i x y Hx Hy. rewrite Hx in Hy. injection Hy as <-.
    rewrite Forall_forall in IH. rewrite forallb_forall in Hw, Hn.
    assert (Hin : In x l)
      by (apply list_elem_of_In; eapply list_elem_of_lookup_2, Hx).
    apply IH; [now apply list_elem_of_In | now apply Hw | now apply Hn].
  - rewrite (equals_sequences slots _ _ l l) by reflexivity.
    rewrite Nat.eqb_refl. cbn [negb]. cbn [well_formed no_nan] in Hw, Hn.
    apply (every_index_pairwise slots [] l l).
    apply Forall2_same_length_lookup. split; [reflexivity|].
    intros i x y Hx Hy. rewrite Hx in Hy. injection Hy as <-.
    rewrite Forall_forall in IH. rewrite forallb_forall in Hw, Hn.
    assert (Hin : In x l)
      by (apply list_elem_of_In; eapply list_elem_of_lookup_2, Hx).
    apply IH; [now apply list_elem_of_In | now apply Hw | now apply Hn].
  - rewrite equals_maps, Nat.eqb_refl. cbn [negb].
    cbn [well_formed no_nan] in Hw, Hn.
    apply andb_prop in Hw as [Hu Hw].
    apply every_key_entries. intros k x Hin.
    rewrite (prop_of_entry m k x Hu Hin).
    rewrite Forall_forall in IH. rewrite forallb_forall in Hw, Hn.
    apply (IH (k, x));
      [now apply list_elem_of_In | exact (Hw (k, x) Hin)
      | exact (Hn (k, x) Hin)].
Qed.

(** X1: [=] is reflexive on every Value that holds neither [undefined] nor
    an integer whose payload is NaN: such a Value compared with itself is
    equal, whatever it is made of; an atom or a function is equal to
    itself.  The integer NaN, which [(/ 0 0)] builds, is the exception:
    [=] finds it different from itself. *)
Theorem equals_reflexive (slots : gmap oid MalType) (v : MalType) :
  (well_formed v = true → no_nan v = true →
   core.equals slots v v = Ok true)
  ∧ (∀ o, core.equals slots (MalInt o NaN) (MalInt o NaN) = Ok false)
  ∧ (∃ o, fst (run_in_core 20 10
                 (s_list [s_sym "let*";
                          s_list [s_sym "x";
                                  s_list [s_sym "/"; s_int 0; s_int 0]];
                          s_list [s_sym "="; s_sym "x"; s_sym "x"]]))
          = Ok (MalBool o false)).
Proof.
  split; [exact (equals_self slots v)|]. split; [reflexivity|].
  eexists. vm_compute. reflexivity.
Qed.

Lemma equals_reflexive_witness :
  core.equals ∅
    (MalList 9 [MalInt 1 5; MalVec 4 [MalStr 2 "a"; MalAtom 3];
                MalMap 8 [("sx", MalNil 5); ("ky", MalFnNative 7 6 "+")]])
    (MalList 9 [MalInt 1 5; MalVec 4 [MalStr 2 "a"; MalAtom 3];
                MalMap 8 [("sx", MalNil 5); ("ky", MalFnNative 7 6 "+")]])
  = Ok true.
Proof.
  apply (proj1 (equals_reflexive ∅
                  (MalList 9 [MalInt 1 5; MalVec 4 [MalStr 2 "a"; MalAtom 3];
                              MalMap 8 [("sx", MalNil 5);
                                        ("ky", MalFnNative 7 6 "+")]])));
    reflexivity.
Defined.

Lemma has_prop_In (m : list (string * MalType)) (k : string) :
  has_prop m k = true ↔ In k (List.map fst m).
Proof.
  unfold has_prop. rewrite existsb_exists. split.
  - intros [[k' x] [Hin Hk]]. apply String.eqb_eq in Hk. cbn in Hk.
    subst k'. apply in_map_iff. exists (k, x). auto.
  - intros Hin. apply in_map_iff in Hin as [[k' x] [Hk Hin]]. cbn in Hk.
    subst k'. exists (k, x). split; [exact Hin | apply String.eqb_refl].
Qed.

Lemma unique_keys_NoDup (m : list (string * MalType)) :
  unique_keys m = true ↔ List.NoDup (List.map fst m).
Proof.
  induction m as [|[k x] m IH]; cbn.
  - split; [constructor | reflexivity].
  - rewrite andb_true_iff, negb_true_iff, IH. split.
    + intros [Hk Hm]. constructor; [|exact Hm].
      rewrite <- has_prop_In. congruence.
    + intros H. inversion H as [|? ? Hk Hm]; subst. split; [|exact Hm].
      destruct (has_prop m k) eqn:E; [|reflexivity].
      apply has_prop_In in E. contradiction.
Qed.

(** X2: two maps with as many entries are equal as soon as every entry of
    the first has, under the same key, a value in the second that [=] finds
    equal; so a map that holds no integer NaN is equal to every map that
    holds the same entries in another order of insertion. *)
Theorem equals_maps_any_order (slots : gmap oid MalType) (oa ob : oid)
    (a_ b_ : list (string * MalType)) :
  (length a_ = length b_ →
   (∀ k x, In (k, x) a_ → core.equals slots x (prop b_ k) = Ok true) →
   core.equals slots (MalMap oa a_) (MalMap ob b_) = Ok true)
  ∧ (Permutation a_ b_ →
     well_formed (MalMap oa a_) = true →
     no_nan (MalMap oa a_) = true →
     core.equals slots (MalMap oa a_) (MalMap ob b_) = Ok true).
Proof.
  assert (Hgen : length a_ = length b_ →
            (∀ k x, In (k, x) a_ → core.equals slots x (prop b_ k) = Ok true) →
            core.equals slots (MalMap oa a_) (MalMap ob b_) = Ok true).
  { intros Hlen H. rewrite equals_maps, Hlen, Nat.eqb_refl. cbn [negb].
    now apply every_key_entries. }
  split; [exact Hgen|].
  intros Hperm Hw Hn. apply Hgen; [now apply Permutation_length|].
  cbn [well_formed no_nan] in Hw, Hn. apply andb_prop in Hw as [Hu Hw].
  intros k x Hin.
  assert (Hub : unique_keys b_ = true).
  { apply unique_keys_NoDup. apply unique_keys_NoDup in Hu.
    eapply Permutation_NoDup; [|exact Hu].
    now apply Permutation_map. }
  rewrite (prop_of_entry b_ k x Hub)
    by (eapply Permutation_in; [exact Hperm | exact Hin]).
  rewrite forallb_forall in Hw, Hn.
  apply equals_self; [exact (Hw (k, x) Hin) | exact (Hn (k, x) Hin)].
Qed.

Lemma equals_maps_any_order_witness :
  core.equals ∅
    (MalMap 0 [("sa", MalInt 1 1); ("kb", MalList 3 [MalInt 2 2])])
    (MalMap 4 [("kb", MalList 3 [MalInt 2 2]); ("sa", MalInt 1 1)])
  = Ok true.
Proof.
  apply (proj2 (equals_maps_any_order ∅ 0 4
                  [("sa", MalInt 1 1); ("kb", MalList 3 [MalInt 2 2])]
                  [("kb", MalList 3 [MalInt 2 2]); ("sa", MalInt 1 1)])).
  - apply perm_swap.
  - reflexivity.
  - reflexivity.
Defined.

(** ** Sequence operations *)

(** X3: [first] and [rest] accept nil: [first] of nil or of an empty
    sequence is a new nil, [first] of a non-empty list or vector is its
    first element itself; [rest] of nil is a new empty list, and [rest] of a
    list or a vector is a new list (never a vector) of the elements after
    the first, empty when there is none. *)
Theorem first_rest_accept_nil (reg : MalType → Res FnReg) (h : Heap) :
  (∀ o, ns_call reg "first" [MalNil o] h = (Ok (MalNil (next_oid h)), bump h))
  ∧ (∀ s o, s = MalList o [] ∨ s = MalVec o [] →
       ns_call reg "first" [s] h = (Ok (MalNil (next_oid h)), bump h))
  ∧ (∀ s o x l, s = MalList o (x :: l) ∨ s = MalVec o (x :: l) →
       ns_call reg "first" [s] h = (Ok x, h))
  ∧ (∀ o, ns_call reg "rest" [MalNil o] h
          = (Ok (MalList (next_oid h) []), bump h))
  ∧ (∀ s o l, s = MalList o l ∨ s = MalVec o l →
       ns_call reg "rest" [s] h = (Ok (MalList (next_oid h) (tl l)), bump h)).
Proof.
  split; [|split; [|split; [|split]]].
  - reflexivity.
  - intros s o [-> | ->]; reflexivity.
  - intros s o x l [-> | ->]; reflexivity.
  - reflexivity.
  - intros s o l [-> | ->]; reflexivity.
Qed.

Lemma first_rest_accept_nil_witness :
  ns_call (fun _ => Throw OutOfFuel) "first" [MalVec 5 []] empty_heap
  = (Ok (MalNil 0), bump empty_heap)
  ∧ ns_call (fun _ => Throw OutOfFuel) "rest"
      [MalVec 5 [MalInt 1 1; MalInt 2 2]] empty_heap
    = (Ok (MalList 0 [MalInt 2 2]), bump empty_heap).
Proof.
  pose proof (first_rest_accept_nil (fun _ => Throw OutOfFuel) empty_heap)
    as (_ & Hfirst & _ & _ & Hrest).
  split.
  - apply (Hfirst (MalVec 5 []) 5). right. reflexivity.
  - apply (Hrest (MalVec 5 [MalInt 1 1; MalInt 2 2]) 5
             [MalInt 1 1; MalInt 2 2]). right. reflexivity.
Defined.

(** X4: [nth] checks the index against the length only: for a negative
    index it throws nothing and hands back [undefined], the result of the
    array read [values[i]], where a Value is expected. *)
Theorem nth_negative_index (reg : MalType → Res FnReg) (s : MalType)
    (o oi : oid) (l : list MalType) (i : Z) (h : Heap) :
  s = MalList o l ∨ s = MalVec o l →
  (i < 0)%Z →
  ns_call reg "nth" [s; MalInt oi i] h = (Ok Undefined, h).
Proof.
  intros Hs Hi.
  assert (Hge : (i >=? Z.of_nat (length l))%Z = false).
  { rewrite Z.geb_leb. apply Z.leb_gt. lia. }
  assert (Hlt : (i <? 0)%Z = true) by (apply Z.ltb_lt; lia).
  destruct Hs as [-> | ->]; unfold ns_call; cbn -[number.ge at_number];
    rewrite ge_integers, Hge; cbn [at_number]; rewrite Hlt; reflexivity.
Qed.

Lemma nth_negative_index_witness :
  ns_call (fun _ => Throw OutOfFuel) "nth"
    [MalList 0 [MalInt 1 10]; MalInt 2 (-1)] empty_heap
  = (Ok Undefined, empty_heap).
Proof.
  apply (nth_negative_index (fun _ => Throw OutOfFuel)
           (MalList 0 [MalInt 1 10]) 0 2 [MalInt 1 10] (-1) empty_heap).
  - left. reflexivity.
  - lia.
Defined.

Lemma mapM_isListOrVec (ls : list (list MalType)) (args : list MalType)
    (h : Heap) :
  Forall2 (fun a l => t.isListOrVec a = Ok l) args ls →
  core.mapM (fun a => lift (t.isListOrVec a)) args h = (Ok ls, h).
Proof.
  induction 1 as [|a l args ls Ha _ IH]; [reflexivity|].
  cbn [core.mapM]. unfold bind at 1. unfold lift at 1. rewrite Ha.
  unfold bind at 1. rewrite IH. reflexivity.
Qed.

(** X5: [cons] puts the element in front of the elements of a list or of a
    vector and always returns a new list; [concat] returns a new list with
    the elements of all its arguments in order, each of them a list or a
    vector, and the empty list when it has no argument. *)
Theorem cons_concat_build_lists (reg : MalType → Res FnReg) (h : Heap) :
  (∀ x s o l, s = MalList o l ∨ s = MalVec o l →
     ns_call reg "cons" [x; s] h = (Ok (MalList (next_oid h) (x :: l)), bump h))
  ∧ (∀ args ls,
       Forall2 (fun a l => t.isListOrVec a = Ok l) args ls →
       ns_call reg "concat" args h
       = (Ok (MalList (next_oid h) (List.concat ls)), bump h))
  ∧ ns_call reg "concat" [] h = (Ok (MalList (next_oid h) []), bump h).
Proof.
  split; [|split].
  - intros x s o l [-> | ->]; reflexivity.
  - intros args ls HF. unfold ns_call. cbn [core.lookup_fn core.ns String.eqb
      Ascii.eqb Bool.eqb]. unfold bind at 1.
    rewrite (mapM_isListOrVec ls args h HF). reflexivity.
  - reflexivity.
Qed.

Lemma cons_concat_build_lists_witness :
  ns_call (fun _ => Throw OutOfFuel) "cons"
    [MalInt 1 1; MalVec 3 [MalInt 2 2]] empty_heap
  = (Ok (MalList 0 [MalInt 1 1; MalInt 2 2]), bump empty_heap)
  ∧ ns_call (fun _ => Throw OutOfFuel) "concat"
      [MalList 3 [MalInt 1 1]; MalVec 4 [MalInt 2 2]] empty_heap
    = (Ok (MalList 0 [MalInt 1 1; MalInt 2 2]), bump empty_heap).
Proof.
  pose proof (cons_concat_build_lists (fun _ => Throw OutOfFuel) empty_heap)
    as (Hcons & Hconcat & _).
  split.
  - apply (Hcons (MalInt 1 1) (MalVec 3 [MalInt 2 2]) 3 [MalInt 2 2]).
    right. reflexivity.
  - apply (Hconcat [MalList 3 [MalInt 1 1]; MalVec 4 [MalInt 2 2]]
             [[MalInt 1 1]; [MalInt 2 2]]).
    repeat constructor.
Defined.

(** ** Maps *)

Lemma prop_set_prop_same (m : list (string * MalType)) (k : string)
    (v : MalType) :
  prop (set_prop m k v) k = v.
Proof.
  induction m as [|[k' x] m IH]; cbn.
  - now rewrite String.eqb_refl.
  - destruct (String.eqb k' k) eqn:E; cbn; rewrite E; [reflexivity | exact IH].
Qed.

Lemma prop_set_prop_other (m : list (string * MalType)) (k k' : string)
    (v : MalType) :
  k' ≠ k → prop (set_prop m k v) k' = prop m k'.
Proof.
  intros Hne. induction m as [|[k1 x] m IH]; cbn.
  - destruct (String.eqb k k') eqn:E; [|reflexivity].
    apply String.eqb_eq in E. congruence.
  - destruct (String.eqb k1 k) eqn:E; cbn.
    + apply String.eqb_eq in E. subst k1.
      destruct (String.eqb k k') eqn:E'; [|reflexivity].
      apply String.eqb_eq in E'. congruence.
    + now rewrite IH.
Qed.

Lemma has_prop_set_prop (m : list (string * MalType)) (k k' : string)
    (v : MalType) :
  has_prop (set_prop m k v) k' = has_prop m k' || String.eqb k k'.
Proof.
  unfold has_prop. induction m as [|[k1 x] m IH]; cbn.
  - now rewrite orb_false_r.
  - destruct (String.eqb k1 k) eqn:E; cbn.
    + apply String.eqb_eq in E. subst k1.
      destruct (String.eqb k k'); [reflexivity | now rewrite orb_false_r].
    + rewrite IH. now rewrite orb_assoc.
Qed.

Lemma unique_keys_set_prop (m : list (string * MalType)) (k : string)
    (v : MalType) :
  unique_keys m = true → unique_keys (set_prop m k v) = true.
Proof.
  induction m as [|[k1 x] m IH]; intros Hu; [reflexivity|].
  cbn in Hu. apply andb_prop in Hu as [Hk Hu]. cbn.
  destruct (String.eqb k1 k) eqn:E; cbn.
  - now rewrite Hk, Hu.
  - rewrite has_prop_set_prop, (IH Hu).
    apply negb_true_iff in Hk. rewrite Hk. cbn.
    rewrite String.eqb_sym, E. reflexivity.
Qed.

(** X6: [assoc] of one key and value returns a new map in which [get] of
    that key finds the value itself, every other key reads as in the old
    map, and the keys stay pairwise different; the dictionary of the old
    map is copied, not written. *)
Theorem assoc_then_get (reg : MalType → Res FnReg) (o : oid)
    (kvs : list (string * MalType)) (k v : MalType) (ek : string)
    (h : Heap) :
  t.mal_to_map_key k = Ok ek →
  is_undefined v = false →
  ∃ kvs',
    ns_call reg "assoc" [MalMap o kvs; k; v] h
      = (Ok (MalMap (S (next_oid h)) kvs'), bump (bump h))
    ∧ ns_call reg "get" [MalMap (S (next_oid h)) kvs'; k] (bump (bump h))
      = (Ok v, bump (bump h))
    ∧ (∀ ek', ek' ≠ ek → prop kvs' ek' = prop kvs ek')
    ∧ (unique_keys kvs = true → unique_keys kvs' = true).
Proof.
  intros Hk Hv. exists (set_prop kvs ek v).
  split; [|split; [|split]].
  - unfold ns_call. cbn [core.lookup_fn core.ns String.eqb Ascii.eqb Bool.eqb].
    cbn [at_index nth t.isMap lift tl t.entries]. unfold bind at 1.
    cbn [lift]. unfold bind at 1. rewrite Hk. reflexivity.
  - unfold ns_call. cbn [core.lookup_fn core.ns String.eqb Ascii.eqb Bool.eqb].
    cbn [at_index nth t.isMap]. unfold bind, lift. rewrite Hk.
    rewrite prop_set_prop_same.
    destruct v; [discriminate | reflexivity..].
  - intros ek' Hne. now apply prop_set_prop_other.
  - apply unique_keys_set_prop.
Qed.

Lemma assoc_then_get_witness :
  ∃ kvs',
    ns_call (fun _ => Throw OutOfFuel) "assoc"
      [MalMap 0 [("sa", MalInt 1 1)]; MalKey 2 ":b"; MalInt 3 7] empty_heap
      = (Ok (MalMap 1 kvs'), bump (bump empty_heap))
    ∧ ns_call (fun _ => Throw OutOfFuel) "get"
        [MalMap 1 kvs'; MalKey 2 ":b"] (bump (bump empty_heap))
      = (Ok (MalInt 3 7), bump (bump empty_heap))
    ∧ (∀ ek', ek' ≠ "k:b" → prop kvs' ek' = prop [("sa", MalInt 1 1)] ek')
    ∧ (unique_keys [("sa", MalInt 1 1)] = true → unique_keys kvs' = true).
Proof.
  apply (assoc_then_get (fun _ => Throw OutOfFuel) 0 [("sa", MalInt 1 1)]
           (MalKey 2 ":b") (MalInt 3 7) "k:b" empty_heap); reflexivity.
Defined.

Lemma delete_prop_cons (m : list (string * MalType)) (k k1 : string)
    (x : MalType) :
  delete_prop ((k1, x) :: m) k
  = if String.eqb k1 k then delete_prop m k else (k1, x) :: delete_prop m k.
Proof.
  unfold delete_prop. rewrite filter_cons. cbn [fst].
  destruct (String.eqb k1 k); cbn; reflexivity.
Qed.

Lemma has_prop_delete_prop (m : list (string * MalType)) (k k' : string) :
  has_prop (delete_prop m k) k' = has_prop m k' && negb (String.eqb k k').
Proof.
  induction m as [|[k1 x] m IH]; [reflexivity|].
  rewrite delete_prop_cons. destruct (String.eqb k1 k) eqn:E.
  - apply String.eqb_eq in E. subst k1. rewrite IH. unfold has_prop. cbn.
    destruct (String.eqb k k'); cbn; [now rewrite andb_false_r | reflexivity].
  - unfold has_prop in *. cbn. rewrite IH.
    destruct (String.eqb k1 k') eqn:E'; cbn; [|reflexivity].
    apply String.eqb_eq in E'. subst k1. rewrite String.eqb_sym, E.
    reflexivity.
Qed.

Lemma prop_delete_prop_other (m : list (string * MalType)) (k k' : string) :
  k' ≠ k → prop (delete_prop m k) k' = prop m k'.
Proof.
  intros Hne. induction m as [|[k1 x] m IH]; [reflexivity|].
  rewrite delete_prop_cons. destruct (String.eqb k1 k) eqn:E; cbn.
  - apply String.eqb_eq in E. subst k1.
    destruct (String.eqb k k') eqn:E'; [|exact IH].
    apply String.eqb_eq in E'. congruence.
  - now rewrite IH.
Qed.

(** X7: [dissoc] of one key returns a new map without it: [contains?] of
    the key is false there and [get] of it is a new nil, while every other
    key reads as before; a key that the map lacks is removed without
    complaint. *)
Theorem dissoc_removes_key (reg : MalType → Res FnReg) (o : oid)
    (kvs : list (string * MalType)) (k : MalType) (ek : string) (h : Heap) :
  t.mal_to_map_key k = Ok ek →
  ∃ kvs',
    ns_call reg "dissoc" [MalMap o kvs; k] h
      = (Ok (MalMap (next_oid h) kvs'), bump h)
    ∧ ns_call reg "contains?" [MalMap (next_oid h) kvs'; k] (bump h)
      = (Ok (MalBool (S (next_oid h)) false), bump (bump h))
    ∧ ns_call reg "get" [MalMap (next_oid h) kvs'; k] (bump h)
      = (Ok (MalNil (S (next_oid h))), bump (bump h))
    ∧ (∀ ek', ek' ≠ ek → prop kvs' ek' = prop kvs ek')
    ∧ (has_prop kvs ek = false → kvs' = kvs).
Proof.
  intros Hk. exists (delete_prop kvs ek).
  assert (Hgone : has_prop (delete_prop kvs ek) ek = false).
  { rewrite has_prop_delete_prop, String.eqb_refl. apply andb_false_r. }
  split; [|split; [|split; [|split]]].
  - unfold ns_call. cbn [core.lookup_fn core.ns String.eqb Ascii.eqb Bool.eqb].
    cbn [at_index nth t.isMap tl core.mapM]. unfold bind, lift, ret.
    rewrite Hk. reflexivity.
  - unfold ns_call. cbn [core.lookup_fn core.ns String.eqb Ascii.eqb Bool.eqb].
    cbn [at_index nth t.isMap]. unfold bind, lift. rewrite Hk, Hgone.
    reflexivity.
  - unfold ns_call. cbn [core.lookup_fn core.ns String.eqb Ascii.eqb Bool.eqb].
    cbn [at_index nth t.isMap]. unfold bind, lift. rewrite Hk.
    rewrite (has_prop_false _ _ Hgone). reflexivity.
  - intros ek' Hne. now apply prop_delete_prop_other.
  - intros Hno. induction kvs as [|[k1 x] kvs IH]; [reflexivity|].
    rewrite delete_prop_cons. unfold has_prop in Hno. cbn in Hno.
    apply orb_false_elim in Hno as [E Hno]. rewrite E. f_equal.
    apply IH; [|exact Hno].
    rewrite has_prop_delete_prop, String.eqb_refl. apply andb_false_r.
Qed.

Lemma dissoc_removes_key_witness :
  ∃ kvs',
    ns_call (fun _ => Throw OutOfFuel) "dissoc"
      [MalMap 0 [("sa", MalInt 1 1); ("sb", MalInt 2 2)]; MalStr 3 "a"]
      empty_heap
      = (Ok (MalMap 0 kvs'), bump empty_heap)
    ∧ ns_call (fun _ => Throw OutOfFuel) "contains?"
        [MalMap 0 kvs'; MalStr 3 "a"] (bump empty_heap)
      = (Ok (MalBool 1 false), bump (bump empty_heap))
    ∧ ns_call (fun _ => Throw OutOfFuel) "get"
        [MalMap 0 kvs'; MalStr 3 "a"] (bump empty_heap)
      = (Ok (MalNil 1), bump (bump empty_heap))
    ∧ (∀ ek', ek' ≠ "sa" →
         prop kvs' ek' = prop [("sa", MalInt 1 1); ("sb", MalInt 2 2)] ek')
    ∧ (has_prop [("sa", MalInt 1 1); ("sb", MalInt 2 2)] "sa" = false →
       kvs' = [("sa", MalInt 1 1); ("sb", MalInt 2 2)]).
Proof.
  apply (dissoc_removes_key (fun _ => Throw OutOfFuel) 0
           [("sa", MalInt 1 1); ("sb", MalInt 2 2)] (MalStr 3 "a") "sa"
           empty_heap).
  reflexivity.
Defined.

(** X8: [get] returns a new nil when the map is nil, without looking at
    the key at all, and when the map has no entry under the key. *)
Theorem get_without_entry (reg : MalType → Res FnReg) (h : Heap) :
  (∀ o k, ns_call reg "get" [MalNil o; k] h
          = (Ok (MalNil (next_oid h)), bump h))
  ∧ (∀ o kvs k ek,
       t.mal_to_map_key k = Ok ek → has_prop kvs ek = false →
       ns_call reg "get" [MalMap o kvs; k] h
       = (Ok (MalNil (next_oid h)), bump h)).
Proof.
  split; [reflexivity|].
  intros o kvs k ek Hk Hno. unfold ns_call.
  cbn [core.lookup_fn core.ns String.eqb Ascii.eqb Bool.eqb].
  cbn [at_index nth t.isMap]. unfold bind, lift. rewrite Hk.
  rewrite (has_prop_false _ _ Hno). reflexivity.
Qed.

Lemma get_without_entry_witness :
  ns_call (fun _ => Throw OutOfFuel) "get"
    [MalMap 0 [("sa", MalInt 1 1)]; MalKey 2 ":a"] empty_heap
  = (Ok (MalNil 0), bump empty_heap).
Proof.
  apply (proj2 (get_without_entry (fun _ => Throw OutOfFuel) empty_heap)
           0 [("sa", MalInt 1 1)] (MalKey 2 ":a") "k:a"); reflexivity.
Defined.

(** ** Atoms *)

(** X9: [atom] makes a new cell that holds its argument; [deref] reads the
    Value in the slot, the object itself; after [reset!] of a cell to [w],
    which returns [w], [deref] of that cell yields [w], every other cell
    holds what it held, and no frame of any environment has changed. *)
Theorem atom_deref_reset (reg : MalType → Res FnReg) (h : Heap) :
  (∀ v, ns_call reg "atom" [v] h
          = (Ok (MalAtom (next_oid h)), snd (ns_call reg "atom" [v] h))
        ∧ ns_call reg "deref" [MalAtom (next_oid h)]
            (snd (ns_call reg "atom" [v] h))
          = (Ok v, snd (ns_call reg "atom" [v] h)))
  ∧ (∀ a w,
       let h' := snd (ns_call reg "reset!" [MalAtom a; w] h) in
       ns_call reg "reset!" [MalAtom a; w] h = (Ok w, h')
       ∧ ns_call reg "deref" [MalAtom a] h' = (Ok w, h')
       ∧ (∀ b, b ≠ a →
            ns_call reg "deref" [MalAtom b] h'
            = (fst (ns_call reg "deref" [MalAtom b] h), h'))
       ∧ frames h' = frames h).
Proof.
  split.
  - intros v. split; [reflexivity|].
    unfold ns_call. cbn [core.lookup_fn core.ns String.eqb Ascii.eqb Bool.eqb].
    cbn [at_index nth t.isAtom]. unfold bind, lift, get_cell, t.atom, bind,
      fresh_oid, set_cell, ret. cbn [snd cells fst].
    rewrite lookup_insert_eq. reflexivity.
  - intros a w h'. subst h'. unfold ns_call.
    cbn [core.lookup_fn core.ns String.eqb Ascii.eqb Bool.eqb].
    cbn [at_index nth t.isAtom]. unfold bind, lift, get_cell, set_cell, ret.
    cbn [snd cells fst frames].
    split; [reflexivity|]. split; [|split; [|reflexivity]].
    + rewrite lookup_insert_eq. reflexivity.
    + intros b Hne. rewrite lookup_insert_ne by congruence. reflexivity.
Qed.

Lemma atom_deref_reset_witness :
  ns_call (fun _ => Throw OutOfFuel) "deref" [MalAtom 0]
    (snd (ns_call (fun _ => Throw OutOfFuel) "reset!"
            [MalAtom 1; MalInt 5 7]
            (snd (t.atom (MalInt 9 5) empty_heap))))
  = (fst (ns_call (fun _ => Throw OutOfFuel) "deref" [MalAtom 0]
            (snd (t.atom (MalInt 9 5) empty_heap))),
     snd (ns_call (fun _ => Throw OutOfFuel) "reset!"
            [MalAtom 1; MalInt 5 7]
            (snd (t.atom (MalInt 9 5) empty_heap)))).
Proof.
  refine (proj1 (proj2 (proj2 (proj2 (atom_deref_reset
                   (fun _ => Throw OutOfFuel)
                   (snd (t.atom (MalInt 9 5) empty_heap))) 1 (MalInt 5 7))))
            0 _).
  discriminate.
Defined.

(** X10: [swap!] calls the function on the Value in the slot followed by
    the extra arguments; when the call returns [new], the slot holds [new]
    from then on and [new] is the result; when the call throws, the error
    goes up and [swap!] itself has not written the slot. *)
Theorem swap_calls_then_stores (reg : MalType → Res FnReg) (a : oid)
    (fn : MalType) (g : FnReg) (extra : list MalType) (h : Heap) :
  t.isFn fn = Ok fn →
  reg fn = Ok g →
  let old := default Undefined (cells h !! a) in
  (∀ new h1,
     g (old :: extra) h = (Ok new, h1) →
     let h2 := snd (set_cell a new h1) in
     ns_call reg "swap!" (MalAtom a :: fn :: extra) h = (Ok new, h2)
     ∧ ns_call reg "deref" [MalAtom a] h2 = (Ok new, h2))
  ∧ (∀ e h1,
       g (old :: extra) h = (Throw e, h1) →
       ns_call reg "swap!" (MalAtom a :: fn :: extra) h = (Throw e, h1)).
Proof.
  intros Hfn Hreg old. split.
  - intros new h1 Hg h2. unfold ns_call.
    cbn [core.lookup_fn core.ns String.eqb Ascii.eqb Bool.eqb].
    cbn [at_index nth t.isAtom skipn]. unfold bind, lift, get_cell.
    rewrite Hfn, Hreg. unfold old in Hg. change (skipn 0 extra) with extra.
    rewrite Hg. split; [reflexivity|].
    subst h2. unfold set_cell, ret. cbn [snd cells].
    rewrite lookup_insert_eq. reflexivity.
  - intros e h1 Hg. unfold ns_call.
    cbn [core.lookup_fn core.ns String.eqb Ascii.eqb Bool.eqb].
    cbn [at_index nth t.isAtom skipn]. unfold bind, lift, get_cell.
    rewrite Hfn, Hreg. unfold old in Hg. change (skipn 0 extra) with extra.
    rewrite Hg. reflexivity.
Qed.

Lemma swap_calls_then_stores_witness :
  ns_call (toFnReg 5 5) "swap!" [MalAtom 0; MalFnNative 2 1 "+"; MalInt 3 3]
    (snd (t.atom (MalInt 9 5) empty_heap))
  = (Ok (MalInt 1 8),
     snd (set_cell 0 (MalInt 1 8) (bump (snd (t.atom (MalInt 9 5) empty_heap))))).
Proof.
  refine (proj1 (proj1 (swap_calls_then_stores (toFnReg 5 5) 0
                   (MalFnNative 2 1 "+") (ns_call (toFnReg 4 5) "+")
                   [MalInt 3 3] (snd (t.atom (MalInt 9 5) empty_heap)) _ _)
                   (MalInt 1 8)
                   (bump (snd (t.atom (MalInt 9 5) empty_heap))) _)).
  - reflexivity.
  - reflexivity.
  - reflexivity.
Defined.

(** ** Calling functions from the library *)

(** X11: [apply] calls the function on the leading arguments followed by
    the elements of its last argument, a list or a vector. *)
Theorem apply_spreads_last_argument (reg : MalType → Res FnReg)
    (f : MalType) (g : FnReg) (leading : list MalType) (s : MalType)
    (o : oid) (l : list MalType) (h : Heap) :
  reg f = Ok g →
  s = MalList o l ∨ s = MalVec o l →
  ns_call reg "apply" (f :: leading ++ [s]) h = g (leading ++ l) h.
Proof.
  intros Hreg Hs. unfold ns_call.
  cbn [core.lookup_fn core.ns String.eqb Ascii.eqb Bool.eqb].
  cbn [tl at_index nth]. rewrite last_last, removelast_last.
  unfold bind, lift. rewrite Hreg.
  destruct Hs as [-> | ->]; reflexivity.
Qed.

Lemma apply_spreads_last_argument_witness :
  ns_call (toFnReg 5 5) "apply"
    (MalFnNative 2 1 "+" :: [MalInt 3 1] ++ [MalVec 5 [MalInt 4 2]]) empty_heap
  = ns_call (toFnReg 4 5) "+" ([MalInt 3 1] ++ [MalInt 4 2]) empty_heap.
Proof.
  apply (apply_spreads_last_argument (toFnReg 5 5) (MalFnNative 2 1 "+")
           (ns_call (toFnReg 4 5) "+") [MalInt 3 1] (MalVec 5 [MalInt 4 2]) 5
           [MalInt 4 2] empty_heap).
  - reflexivity.
  - right. reflexivity.
Defined.

Lemma mapM_runs_each (f : MalType → M MalType) (l ys : list MalType)
    (h h' : Heap) :
  runs_each f l h ys h' → core.mapM f l h = (Ok ys, h').
Proof.
  induction 1 as [h | x l h y h1 ys h2 Hx _ IH]; [reflexivity|].
  cbn [core.mapM]. unfold bind at 1. rewrite Hx.
  unfold bind at 1. rewrite IH. reflexivity.
Qed.

Lemma mapM_first_failure (f : MalType → M MalType)
    (pre post ys : list MalType) (x : MalType) (h h1 h2 : Heap) (e : Exn) :
  runs_each f pre h ys h1 →
  f x h1 = (Throw e, h2) →
  core.mapM f (pre ++ x :: post) h = (Throw e, h2).
Proof.
  induction 1 as [h | x' l h y h1 ys h3 Hx _ IH]; intros Hf.
  - cbn [app core.mapM]. unfold bind at 1. rewrite Hf. reflexivity.
  - cbn [app core.mapM]. unfold bind at 1. rewrite Hx.
    unfold bind at 1. rewrite (IH Hf). reflexivity.
Qed.

Lemma runs_each_length (f : MalType → M MalType) (l ys : list MalType)
    (h h' : Heap) :
  runs_each f l h ys h' → length ys = length l.
Proof. induction 1; cbn; congruence. Qed.

(** X12: [map] calls the function on each element of the list or vector,
    from first to last and with that element as the only argument, and
    returns a new list of the results, as long as the input; at the first
    call that throws it stops, and the error goes up. *)
Theorem map_calls_in_order (reg : MalType → Res FnReg) (f : MalType)
    (g : FnReg) (h : Heap) :
  reg f = Ok g →
  (∀ s o l ys h',
     s = MalList o l ∨ s = MalVec o l →
     runs_each (fun a => g [a]) l h ys h' →
     ns_call reg "map" [f; s] h = (Ok (MalList (next_oid h') ys), bump h')
     ∧ length ys = length l)
  ∧ (∀ s o pre x post ys h1 e h2,
       s = MalList o (pre ++ x :: post) ∨ s = MalVec o (pre ++ x :: post) →
       runs_each (fun a => g [a]) pre h ys h1 →
       g [x] h1 = (Throw e, h2) →
       ns_call reg "map" [f; s] h = (Throw e, h2)).
Proof.
  intros Hreg. split.
  - intros s o l ys h' Hs Hrun. split; [|exact (runs_each_length _ _ _ _ _ Hrun)].
    unfold ns_call.
    cbn [core.lookup_fn core.ns String.eqb Ascii.eqb Bool.eqb].
    cbn [at_index nth]. unfold bind at 1. unfold lift at 1. rewrite Hreg.
    destruct Hs as [-> | ->]; cbn [t.isListOrVec]; unfold bind at 1;
      unfold lift at 1; unfold bind at 1;
      rewrite (mapM_runs_each _ _ _ _ _ Hrun); reflexivity.
  - intros s o pre x post ys h1 e h2 Hs Hrun Hx. unfold ns_call.
    cbn [core.lookup_fn core.ns String.eqb Ascii.eqb Bool.eqb].
    cbn [at_index nth]. unfold bind at 1. unfold lift at 1. rewrite Hreg.
    destruct Hs as [-> | ->]; cbn [t.isListOrVec]; unfold bind at 1;
      unfold lift at 1; unfold bind at 1;
      rewrite (mapM_first_failure _ _ _ _ _ _ _ _ _ Hrun Hx); reflexivity.
Qed.

Lemma map_calls_in_order_witness :
  ns_call (toFnReg 5 5) "map"
    [MalFnNative 2 1 "list?"; MalVec 5 [MalInt 3 1; MalList 4 []]] empty_heap
  = (Ok (MalList 2 [MalBool 0 false; MalBool 1 true]),
     bump (bump (bump empty_heap))).
Proof.
  refine (proj1 (proj1 (map_calls_in_order (toFnReg 5 5)
                   (MalFnNative 2 1 "list?") (ns_call (toFnReg 4 5) "list?")
                   empty_heap _)
                   (MalVec 5 [MalInt 3 1; MalList 4 []]) 5
                   [MalInt 3 1; MalList 4 []]
                   [MalBool 0 false; MalBool 1 true]
                   (bump (bump empty_heap)) _ _)).
  - reflexivity.
  - right. reflexivity.
  - eapply runs_more; [reflexivity|].
    eapply runs_more; [reflexivity|]. apply runs_none.
Defined.

(** * Further properties of the evaluator *)

(** X13: [eval_ast] evaluates the elements of a list or of a vector from
    left to right and builds a new sequence of the same kind from the
    results; at the first element whose evaluation throws it stops: the
    elements after it are not evaluated, and in an application the
    function is not called. *)
Theorem eval_ast_left_to_right (fuel depth : nat) (o : oid) (env : Env)
    (h : Heap) :
  let recur := nested (eval_ fuel) depth in
  (∀ l ys h',
     runs_each (fun v => recur v env) l h ys h' →
     eval_ast recur (MalList o l) env h
       = (Ok (MalList (next_oid h') ys), bump h')
     ∧ eval_ast recur (MalVec o l) env h
       = (Ok (MalVec (next_oid h') ys), bump h'))
  ∧ (∀ pre x post ys h1 e h2,
       runs_each (fun v => recur v env) pre h ys h1 →
       recur x env h1 = (Throw e, h2) →
       eval_ast recur (MalList o (pre ++ x :: post)) env h = (Throw e, h2)
       ∧ eval_ast recur (MalVec o (pre ++ x :: post)) env h = (Throw e, h2)
       ∧ (∀ head rest,
            head :: rest = pre ++ x :: post →
            is_undefined head = false →
            special_form head = None →
            eval_ (S fuel) depth (MalList o (head :: rest)) env h
            = (Throw e, h2))).
Proof.
  intros recur. split.
  - intros l ys h' Hrun. pose proof (mapM_runs_each _ _ _ _ _ Hrun) as Hm.
    split; cbn [eval_ast]; unfold bind at 1; rewrite Hm; reflexivity.
  - intros pre x post ys h1 e h2 Hrun Hx.
    pose proof (mapM_first_failure _ pre post ys x h h1 h2 e Hrun Hx) as Hm.
    split; [|split].
    + cbn [eval_ast]. unfold bind at 1. rewrite Hm. reflexivity.
    + cbn [eval_ast]. unfold bind at 1. rewrite Hm. reflexivity.
    + intros head rest Heq Hu Hs. cbn [eval_]. rewrite Hu, Hs.
      unfold bind at 1. cbn [eval_ast]. unfold bind at 1.
      rewrite Heq. fold recur. rewrite Hm. reflexivity.
Qed.

Lemma eval_ast_left_to_right_witness :
  eval_ast (nested (eval_ 3) 2)
    (MalList 9 ([MalInt 1 1] ++ MalSym 2 "nowhere" :: [MalInt 3 3]))
    root_env empty_heap
  = (Throw (UnboundSymbol "nowhere"), empty_heap).
Proof.
  refine (proj1 (proj2 (eval_ast_left_to_right 3 2 9 root_env empty_heap)
                   [MalInt 1 1] (MalSym 2 "nowhere") [MalInt 3 3]
                   [MalInt 1 1] empty_heap (UnboundSymbol "nowhere")
                   empty_heap _ _)).
  - eapply runs_more; [reflexivity | apply runs_none].
  - reflexivity.
Defined.

(** X14: [(def! s e)] evaluates [e], binds [s] to the result in the frame
    of the environment it runs in and returns the result; from then on the
    symbol [s] evaluates to that Value in this environment, and the
    bindings of all other frames, the ancestors included, are untouched.
    When [e] throws, nothing is bound. *)
Theorem def_binds_in_current_frame (fuel depth : nat) (o o1 o2 : oid)
    (s : string) (e : MalType) (tail : list MalType) (env : Env)
    (h h1 : Heap) :
  let ast := MalList o (MalSym o1 "def!" :: MalSym o2 s :: e :: tail) in
  (∀ v, nested (eval_ fuel) depth e env h = (Ok v, h1) →
     let h2 := snd (envM.set env s v h1) in
     eval_ (S fuel) depth ast env h = (Ok v, h2)
     ∧ (∀ fuel' depth' o3,
          eval_ (S fuel') depth' (MalSym o3 s) env h2 = (Ok v, h2))
     ∧ (∀ env', frame_of env' ≠ frame_of env →
                envM.data h2 env' = envM.data h1 env')
     ∧ cells h2 = cells h1)
  ∧ (∀ x, nested (eval_ fuel) depth e env h = (Throw x, h1) →
          eval_ (S fuel) depth ast env h = (Throw x, h1)).
Proof.
  intros ast. split.
  - intros v He h2. split; [|split; [|split]].
    + subst ast. cbn [eval_ special_form String.eqb Ascii.eqb Bool.eqb
        is_undefined at_index nth t.isSym lift].
      unfold bind at 1. cbn [lift]. unfold bind at 1. rewrite He.
      reflexivity.
    + intros fuel' depth' o3. rewrite eval_symbol. apply get_bound.
      apply set_then_find.
    + intros env' Hne. now apply set_leaves_other_frames.
    + reflexivity.
  - intros x He. subst ast.
    cbn [eval_ special_form String.eqb Ascii.eqb Bool.eqb
        is_undefined at_index nth t.isSym lift].
    unfold bind at 1. cbn [lift]. unfold bind at 1. rewrite He. reflexivity.
Qed.

Lemma def_binds_in_current_frame_witness :
  eval_ 2 1 (MalList 4 [MalSym 1 "def!"; MalSym 2 "x"; MalInt 3 7]) root_env
        root_heap
  = (Ok (MalInt 3 7), snd (envM.set root_env "x" (MalInt 3 7) root_heap)).
Proof.
  refine (proj1 (proj1 (def_binds_in_current_frame 1 1 4 1 2 "x" (MalInt 3 7)
                          [] root_env root_heap root_heap) (MalInt 3 7) _)).
  reflexivity.
Defined.

Lemma find_after_init (outer : option Env) (binds : list string)
    (args : list MalType) (h : Heap) (s : string) :
  ∀ env, frames_below (next_frame h) env →
         envM.find (snd (envM.init outer binds args h)) env s
         = envM.find h env s.
Proof.
  fix IH 1. intros [f [env'|]] Hb; cbn [frames_below] in Hb;
    destruct Hb as [Hf Hb]; cbn [envM.find].
  - rewrite (IH env' Hb). unfold envM.data.
    cbn [envM.init snd frames frame_of].
    rewrite lookup_insert_ne by lia. reflexivity.
  - unfold envM.data. cbn [envM.init snd frames frame_of].
    rewrite lookup_insert_ne by lia. reflexivity.
Qed.

Lemma bind_params_other (binds : list string) (s : string) :
  ¬ In s binds →
  ∀ args (d : gmap string MalType),
    envM.bind_params binds args d !! s = d !! s.
Proof.
  induction binds as [|b binds IH]; intros Hn args d; [reflexivity|].
  cbn [envM.bind_params]. rewrite IH by (intros Hin; apply Hn; now right).
  apply lookup_insert_ne. intros ->. apply Hn. now left.
Qed.

(** X15: the scope of a closure is lexical.  When a closure whose body is
    the symbol [s] is applied, [s] is looked up in the new frame of the
    parameters and then in the environment in which the closure was
    created: a parameter named [s] yields its argument; otherwise the
    result is the lookup of [s] in the defining environment, whatever the
    environment of the call binds [s] to. *)
Theorem closure_scope_is_lexical (fuel depth : nat) (o : oid)
    (head : MalType) (rest : list MalType) (env : Env) (h h1 : Heap)
    (o' ofn rf ob : oid) (fenv : Env) (params : MalType) (s : string)
    (args : list MalType) (binds : list string) :
  is_undefined head = false →
  special_form head = None →
  eval_ast (nested (eval_ (S fuel)) depth) (MalList o (head :: rest)) env h
    = (Ok (MalList o' (MalFnMal ofn rf fenv params (MalSym ob s) :: args)),
       h1) →
  param_names params = Ok binds →
  frames_below (next_frame h1) fenv →
  (¬ In s binds →
   fst (eval_ (S (S fuel)) depth (MalList o (head :: rest)) env h)
   = fst (envM.get fenv s h1))
  ∧ (∀ v, envM.bind_params binds args ∅ !! s = Some v →
          fst (eval_ (S (S fuel)) depth (MalList o (head :: rest)) env h)
          = Ok v).
Proof.
  intros Hu Hs He Hp Hb.
  rewrite (eval_closure_step (S fuel) depth o head rest env h h1 o' ofn rf
             fenv params (MalSym ob s) args binds Hu Hs He Hp).
  rewrite eval_symbol. unfold envM.get. cbn [envM.find].
  assert (Hd : envM.data (snd (envM.init (Some fenv) binds args h1))
                 (EnvRef (next_frame h1) (Some fenv))
               = envM.bind_params binds args ∅).
  { unfold envM.data. cbn [envM.init snd frames frame_of].
    rewrite lookup_insert_eq. reflexivity. }
  rewrite Hd. split.
  - intros Hn. rewrite (bind_params_other binds s Hn), lookup_empty.
    rewrite (find_after_init (Some fenv) binds args h1 s fenv Hb).
    destruct (envM.find h1 fenv s); reflexivity.
  - intros v Hv. rewrite Hv. reflexivity.
Qed.

Lemma closure_scope_is_lexical_witness :
  fst (eval_ 2 1
         (MalList 9 [MalFnMal 1 0 root_env (MalList 3 [MalSym 2 "p"])
                       (MalSym 4 "not");
                     MalInt 5 1])
         (EnvRef 7 None) root_heap)
  = fst (envM.get root_env "not" (bump root_heap)).
Proof.
  refine (proj1 (closure_scope_is_lexical 0 1 9
                   (MalFnMal 1 0 root_env (MalList 3 [MalSym 2 "p"])
                      (MalSym 4 "not"))
                   [MalInt 5 1] (EnvRef 7 None) root_heap (bump root_heap)
                   (next_oid root_heap) 1 0 4 root_env
                   (MalList 3 [MalSym 2 "p"]) "not" [MalInt 5 1] ["p"]
                   _ _ _ _ _) _).
  - reflexivity.
  - reflexivity.
  - reflexivity.
  - reflexivity.
  - vm_compute. split; [lia | exact I].
  - intros [H | []]. discriminate.
Defined.

Lemma not_is_bound : envM.find root_heap root_env "not" = Some not_closure.
Proof. vm_compute. reflexivity. Qed.

(** X16: the function [not] of the root environment, called on any Value
    [v] and on any heap, returns the boolean false of its own definition
    when [v] is neither nil nor false, and the boolean true of its
    definition otherwise: always one of the same two objects. *)
Theorem not_negates_truthiness (fuel depth : nat) (v : MalType) (h : Heap) :
  is_undefined v = false →
  envM.find root_heap root_env "not" = Some not_closure
  ∧ ∃ g,
      toFnReg (S (S (S fuel))) (S (S depth)) not_closure = Ok g
      ∧ fst (g [v] h)
        = Ok (if truthy v then MalBool 160 false else MalBool 161 true).
Proof.
  intros Hv. split; [exact not_is_bound|].
  exists (closure_call (nested (eval_ (S (S fuel))) (S (S depth))) root_env
            not_params not_body).
  split; [reflexivity|].
  unfold closure_call, not_params, not_body.
  cbn [param_names t.isListOrVec fold_right t.isSym lift].
  unfold bind at 1. cbn [lift]. unfold bind at 1.
  set (E := EnvRef (next_frame h) (Some root_env)).
  set (h1 := snd (envM.init (Some root_env) ["a"] [v] h)).
  change (envM.init (Some root_env) ["a"] [v] h) with (Ok E, h1).
  cbn iota beta. cbn [nested].
  assert (Ha : envM.find h1 E "a" = Some v).
  { apply find_here. unfold envM.data, h1, E.
    cbn [envM.init snd frames frame_of envM.bind_params at_index nth tl].
    rewrite lookup_insert_eq. apply lookup_insert_eq. }
  pose proof (eval_if_step (S fuel) (S depth) 162 158 (MalSym 159 "a")
                (MalBool 160 false) [MalBool 161 true] E h1 h1 v) as Hif.
  cbn [nested] in Hif.
  rewrite Hif; [ | now apply eval_bound_symbol | exact Hv ].
  destruct (truthy v); reflexivity.
Qed.

Lemma not_negates_truthiness_witness :
  ∃ g,
    toFnReg 3 2 not_closure = Ok g
    ∧ fst (g [MalInt 1 0] empty_heap)
      = Ok (if truthy (MalInt 1 0) then MalBool 160 false
            else MalBool 161 true).
Proof.
  apply (not_negates_truthiness 0 0 (MalInt 1 0) empty_heap). reflexivity.
Defined.

Lemma special_form_defined (head : MalType) (f : Form) :
  special_form head = Some f → is_undefined head = false.
Proof. destruct head; [discriminate | reflexivity..]. Qed.

(** X17: the special forms are chosen by the text in the payload of the
    head alone, not by its kind.  Two lists that differ only in their
    heads, both naming the same special form, evaluate alike, so the
    string "if" in head position acts as the symbol [if] does.  (A [do]
    needs an expression after the head for this: without one the head
    itself is what is evaluated next, and the string "do" is its own
    value.) *)
Theorem special_form_by_text (fuel depth : nat) (o : oid)
    (head head' : MalType) (rest : list MalType) (env : Env) (h : Heap)
    (f : Form) :
  special_form head = Some f →
  special_form head' = Some f →
  (f = form_do → rest ≠ []) →
  eval_ fuel depth (MalList o (head :: rest)) env h
  = eval_ fuel depth (MalList o (head' :: rest)) env h
  ∧ (∀ o1 o2 s, special_form (MalStr o1 s) = special_form (MalSym o2 s))
  ∧ (∀ o1, eval_ (S (S fuel)) depth (MalList o [MalStr o1 "do"]) env h
           = (Ok (MalStr o1 "do"), h)).
Proof.
  intros Hs Hs' Hdo. split; [|split; [reflexivity | reflexivity]].
  destruct fuel as [|fuel]; [reflexivity|].
  cbn [eval_].
  rewrite (special_form_defined _ _ Hs), (special_form_defined _ _ Hs').
  rewrite Hs, Hs'. destruct f; cbn [at_index nth]; try reflexivity.
  destruct rest as [|r rest]; [now destruct Hdo|].
  cbn [length Nat.sub skipn at_index nth]. reflexivity.
Qed.

Lemma special_form_by_text_witness :
  eval_ 3 1 (MalList 9 [MalStr 1 "if"; MalNil 2; MalInt 3 1; MalInt 4 2])
        root_env empty_heap
  = eval_ 3 1 (MalList 9 [MalSym 5 "if"; MalNil 2; MalInt 3 1; MalInt 4 2])
          root_env empty_heap.
Proof.
  refine (proj1 (special_form_by_text 3 1 9 (MalStr 1 "if") (MalSym 5 "if")
                   [MalNil 2; MalInt 3 1; MalInt 4 2] root_env empty_heap
                   form_if _ _ _)).
  - reflexivity.
  - reflexivity.
  - discriminate.
Defined.

(** X18: after [core_env], every name of the table [ns] is bound in the
    root frame to a native function of that name, so that calling it runs
    the entry of the table; the same bindings are seen from the
    environment of the REPL. *)
Theorem core_env_binds_every_primitive (reg : MalType → Res FnReg)
    (name : string) :
  In name (List.map fst (core.ns reg)) →
  ∃ o r,
    envM.find root_heap root_env name = Some (MalFnNative o r name)
    ∧ envM.find repl_heap repl_env name = Some (MalFnNative o r name)
    ∧ ∀ fuel depth,
        toFnReg (S fuel) depth (MalFnNative o r name)
        = Ok (ns_call (toFnReg fuel depth) name).
Proof.
  intros Hin.
  assert (Hfound : ∀ table : list (string * FnReg),
            In name (List.map fst table) →
            ∃ g, core.lookup_fn table name = Some g).
  { clear. induction table as [|[n g] table IH]; intros Hin; [destruct Hin|].
    cbn [core.lookup_fn]. destruct (String.eqb n name) eqn:E; [eauto|].
    apply IH. destruct Hin as [Heq | Hin]; [|exact Hin].
    cbn in Heq. subst n. rewrite String.eqb_refl in E. discriminate. }
  assert (Hcall : ∀ o r fuel depth,
            String.eqb name "eval" = false →
            toFnReg (S fuel) depth (MalFnNative o r name)
            = Ok (ns_call (toFnReg fuel depth) name)).
  { intros o r fuel depth Hne. cbn [toFnReg]. rewrite Hne. unfold ns_call.
    destruct (Hfound (core.ns (toFnReg fuel depth)) Hin) as [g Hg].
    rewrite Hg. reflexivity. }
  clear Hfound. cbn [List.map core.ns fst] in Hin.
  repeat (destruct Hin as [<- | Hin];
          [ do 2 eexists;
            split; [vm_compute; reflexivity|];
            split; [vm_compute; reflexivity|];
            intros fuel depth; apply Hcall; reflexivity | ]).
  destruct Hin.
Qed.

Lemma core_env_binds_every_primitive_witness :
  ∃ o r,
    envM.find root_heap root_env "swap!" = Some (MalFnNative o r "swap!")
    ∧ envM.find repl_heap repl_env "swap!" = Some (MalFnNative o r "swap!")
    ∧ ∀ fuel depth,
        toFnReg (S fuel) depth (MalFnNative o r "swap!")
        = Ok (ns_call (toFnReg fuel depth) "swap!").
Proof.
  apply (core_env_binds_every_primitive (fun _ => Throw OutOfFuel) "swap!").
  cbn [List.map core.ns fst]. do 50 right. left. reflexivity.
Defined.

(** X19: [let*] takes its bindings from a list only: with a vector in
    their place it throws before anything is bound, and with a symbol
    that has no expression after it the evaluation of the missing
    expression throws a TypeError.  In both cases the new frame has
    already been created. *)
Theorem let_wants_a_list_of_pairs (fuel depth : nat) (o o1 o2 : oid)
    (body : MalType) (tail : list MalType) (env : Env) (h : Heap) :
  (∀ bs, eval_ (S fuel) depth
           (MalList o (MalSym o1 "let*" :: MalVec o2 bs :: body :: tail))
           env h
         = (Throw (TypeMismatch "list"),
            snd (envM.init (Some env) [] [] h)))
  ∧ (∀ os s, eval_ (S (S fuel)) (S depth)
               (MalList o (MalSym o1 "let*" :: MalList o2 [MalSym os s]
                             :: body :: tail)) env h
             = (Throw JsTypeError, snd (envM.init (Some env) [] [] h))).
Proof. split; reflexivity. Qed.

(** X20: a function made by [fn*] captures the environment of the [fn*]
    form together with the parameter list and the body as they stand,
    evaluating neither; and every evaluation of the form makes a new
    function: [=] finds it equal to itself and different from the
    function that the next evaluation of the same form makes. *)
Theorem fn_star_makes_new_closure (fuel depth : nat) (o o1 : oid)
    (params body : MalType) (tail : list MalType) (env : Env) (h : Heap)
    (slots : gmap oid MalType) (l : list MalType) :
  t.isListOrVec params = Ok l →
  let ast := MalList o (MalSym o1 "fn*" :: params :: body :: tail) in
  let c1 := MalFnMal (S (next_oid h)) (next_oid h) env params body in
  let c2 := MalFnMal (S (S (S (next_oid h)))) (S (S (next_oid h))) env
                     params body in
  eval_ (S fuel) depth ast env h = (Ok c1, bump (bump h))
  ∧ eval_ (S fuel) depth ast env (bump (bump h))
    = (Ok c2, bump (bump (bump (bump h))))
  ∧ core.equals slots c1 c1 = Ok true
  ∧ core.equals slots c1 c2 = Ok false.
Proof.
  intros Hp ast c1 c2.
  assert (E : ∀ h', eval_ (S fuel) depth ast env h'
                    = (Ok (MalFnMal (S (next_oid h')) (next_oid h') env
                                    params body), bump (bump h'))).
  { intros h'. subst ast.
    cbn [eval_ special_form String.eqb Ascii.eqb Bool.eqb is_undefined
         at_index nth].
    unfold bind at 1. unfold lift at 1. rewrite Hp. reflexivity. }
  split; [apply E|]. split; [apply E|]. split.
  - cbn. now rewrite Nat.eqb_refl.
  - cbn. destruct (Nat.eqb_spec (next_oid h) (S (S (next_oid h))));
      [lia | reflexivity].
Qed.

Lemma fn_star_makes_new_closure_witness :
  eval_ 1 0
    (MalList 5 [MalSym 1 "fn*"; MalList 3 [MalSym 2 "x"]; MalSym 4 "x"])
    root_env empty_heap
  = (Ok (MalFnMal 1 0 root_env (MalList 3 [MalSym 2 "x"]) (MalSym 4 "x")),
     bump (bump empty_heap)).
Proof.
  refine (proj1 (fn_star_makes_new_closure 0 0 5 1 (MalList 3 [MalSym 2 "x"])
                   (MalSym 4 "x") [] root_env empty_heap ∅ [MalSym 2 "x"] _)).
  reflexivity.
Defined.

(** X21: the native [eval] evaluates the Value of its argument in the
    environment of the REPL, not in the environment of the call: when the
    argument evaluates to the symbol [s], the result of [(eval e)] is the
    lookup of [s] from the REPL frame, whatever [s] is bound to where the
    call stands. *)
Theorem eval_uses_repl_env (fuel depth : nat) (o o1 : oid) (e : MalType)
    (env : Env) (h h1 : Heap) (ofn rf os : oid) (s : string) :
  envM.find h env "eval" = Some (MalFnNative ofn rf "eval") →
  eval_ (S (S fuel)) depth e env h = (Ok (MalSym os s), h1) →
  eval_ (S (S (S fuel))) (S depth) (MalList o [MalSym o1 "eval"; e]) env h
  = envM.get repl_env s (bump h1).
Proof.
  intros Hf He.
  rewrite (eval_native_step (S (S fuel)) (S depth) o (MalSym o1 "eval") [e]
             env h (bump h1) (next_oid h1) ofn rf "eval" [MalSym os s]
             (fun args => nested (eval_ (S fuel)) (S depth) (at_index args 0)
                                 repl_env));
    [ reflexivity | reflexivity | reflexivity | | reflexivity ].
  cbn [eval_ast core.mapM nested]. unfold bind.
  rewrite (eval_bound_symbol _ _ _ _ _ _ _ Hf), He. reflexivity.
Qed.

Lemma eval_uses_repl_env_witness :
  eval_ 3 1 (MalList 9 [MalSym 1 "eval"; MalSym 2 "x"])
        (EnvRef 5 (Some repl_env))
        (snd (envM.set (EnvRef 5 (Some repl_env)) "x" (MalSym 3 "y")
                repl_heap))
  = envM.get repl_env "y"
      (bump (snd (envM.set (EnvRef 5 (Some repl_env)) "x" (MalSym 3 "y")
                    repl_heap))).
Proof.
  apply (eval_uses_repl_env 0 0 9 1 (MalSym 2 "x") (EnvRef 5 (Some repl_env))
           _ _ 169 168 3 "y").
  - vm_compute. reflexivity.
  - vm_compute. reflexivity.
Defined.

(** ** Where [=] cannot fail *)

Lemma every_index_total (slots : gmap oid MalType) (b_ : list MalType) :
  forallb well_formed b_ = true →
  ∀ a_ i,
    Forall (fun x => ∀ b, well_formed b = true →
                          ∃ r, core.equals slots x b = Ok r) a_ →
    i + length a_ <= length b_ →
    ∃ r, core.every_index slots b_ a_ i = Ok r.
Proof.
  intros Hb. induction a_ as [|x a_ IH]; intros i Ha Hlen; [cbn; eauto|].
  inversion Ha as [|? ? Hx Ha']; subst. cbn [core.every_index].
  cbn [length] in Hlen.
  destruct (lookup_lt_is_Some_2 b_ i) as [y Hy]; [lia|].
  rewrite (at_index_lookup _ _ _ Hy).
  destruct (Hx y) as [[|] Hr].
  - rewrite forallb_forall in Hb. apply Hb. apply list_elem_of_In.
    eapply list_elem_of_lookup_2, Hy.
  - rewrite Hr. apply IH; [exact Ha' | lia].
  - rewrite Hr. eauto.
Qed.

(** X22: [=] returns a boolean, and so does not throw, whenever its first
    argument holds no map at any depth and neither argument holds
    [undefined]: the failure on maps with different keys is the only one
    that well-formed Values can cause. *)
Theorem equals_total_without_maps (slots : gmap oid MalType) (a : MalType) :
  well_formed a = true →
  no_maps a = true →
  ∀ b, well_formed b = true → ∃ r, core.equals slots a b = Ok r.
Proof.
  induction a as [ | o | o x | o n | o s | o s | o s | o l IH | o l IH
                 | o m IH | o | o r name | o r env params ast ]
    using MalType_nested_ind; intros Hw Hm b Hb; try discriminate;
    try (destruct b; try discriminate; cbn;
         repeat match goal with
                | |- context [if ?c then _ else _] => destruct c
                end; eauto; fail).
  - cbn [well_formed no_maps] in Hw, Hm.
    assert (HF : Forall (fun x => ∀ b, well_formed b = true →
                                       ∃ r, core.equals slots x b = Ok r) l).
    { rewrite Forall_forall in IH. apply Forall_forall. intros x Hx b' Hb'.
      rewrite forallb_forall in Hw, Hm. apply list_elem_of_In in Hx as Hin.
      exact (IH x Hx (Hw x Hin) (Hm x Hin) b' Hb'). }
    destruct b as [ | | | | | | | ob lb | ob lb | | | | ];
      try discriminate; try (cbn; eauto; fail).
    + rewrite (equals_sequences slots _ _ l lb) by reflexivity.
      destruct (Nat.eqb_spec (length l) (length lb)) as [Hlen|];
        cbn [negb]; [|eauto].
      apply every_index_total; [exact Hb | exact HF | lia].
    + rewrite (equals_sequences slots _ _ l lb) by reflexivity.
      destruct (Nat.eqb_spec (length l) (length lb)) as [Hlen|];
        cbn [negb]; [|eauto].
      apply every_index_total; [exact Hb | exact HF | lia].
  - cbn [well_formed no_maps] in Hw, Hm.
    assert (HF : Forall (fun x => ∀ b, well_formed b = true →
                                       ∃ r, core.equals slots x b = Ok r) l).
    { rewrite Forall_forall in IH. apply Forall_forall. intros x Hx b' Hb'.
      rewrite forallb_forall in Hw, Hm. apply list_elem_of_In in Hx as Hin.
      exact (IH x Hx (Hw x Hin) (Hm x Hin) b' Hb'). }
    destruct b as [ | | | | | | | ob lb | ob lb | | | | ];
      try discriminate; try (cbn; eauto; fail).
    + rewrite (equals_sequences slots _ _ l lb) by reflexivity.
      destruct (Nat.eqb_spec (length l) (length lb)) as [Hlen|];
        cbn [negb]; [|eauto].
      apply every_index_total; [exact Hb | exact HF | lia].
    + rewrite (equals_sequences slots _ _ l lb) by reflexivity.
      destruct (Nat.eqb_spec (length l) (length lb)) as [Hlen|];
        cbn [negb]; [|eauto].
      apply every_index_total; [exact Hb | exact HF | lia].
Qed.

Lemma equals_total_without_maps_witness :
  ∃ r, core.equals ∅
         (MalList 3 [MalInt 1 1; MalVec 2 []])
         (MalVec 7 [MalInt 4 1; MalMap 6 [("sa", MalNil 5)]]) = Ok r.
Proof.
  apply (equals_total_without_maps ∅ (MalList 3 [MalInt 1 1; MalVec 2 []]));
    reflexivity.
Defined.

(** ** Arguments beyond the declared ones, and [throw] *)

(** X23: the arithmetic and comparison operations read their first two
    arguments and nothing else: whatever follows them in the call is
    ignored, without an error, so the call does what the call on the first
    two arguments alone does.  On two safe integers [+], [-] and [*]
    return a new integer holding the exact result whenever that is a safe
    integer too (a zero product with one negative factor is the negative
    zero), and the comparisons return a new boolean. *)
Theorem arithmetic_reads_two_arguments (reg : MalType → Res FnReg)
    (x y : MalType) (extra : list MalType) (h : Heap) :
  (∀ op, In op ["+"; "-"; "*"; "/"; "<"; "<="; ">"; ">="] →
     ns_call reg op (x :: y :: extra) h = ns_call reg op [x; y] h)
  ∧ (∀ oa ob (a b : Z),
       x = MalInt oa a → y = MalInt ob b →
       number.safe_integer a → number.safe_integer b →
       (number.safe_integer (a + b) →
        ns_call reg "+" (x :: y :: extra) h
        = (Ok (MalInt (next_oid h) (a + b)), bump h))
       ∧ (number.safe_integer (a - b) →
          ns_call reg "-" (x :: y :: extra) h
          = (Ok (MalInt (next_oid h) (a - b)), bump h))
       ∧ (number.safe_integer (a * b) →
          ns_call reg "*" (x :: y :: extra) h
          = (Ok (MalInt (next_oid h)
                   (if (a * b =? 0)%Z
                    then (if xorb (a <? 0)%Z (b <? 0)%Z
                          then NegZero else Fin 0)
                    else Fin (a * b))),
             bump h))
       ∧ ns_call reg "<" (x :: y :: extra) h
         = (Ok (MalBool (next_oid h) (a <? b)%Z), bump h)
       ∧ ns_call reg "<=" (x :: y :: extra) h
         = (Ok (MalBool (next_oid h) (a <=? b)%Z), bump h)
       ∧ ns_call reg ">" (x :: y :: extra) h
         = (Ok (MalBool (next_oid h) (a >? b)%Z), bump h)
       ∧ ns_call reg ">=" (x :: y :: extra) h
         = (Ok (MalBool (next_oid h) (a >=? b)%Z), bump h)).
Proof.
  split.
  - intros op Hop. cbn [In] in Hop.
    repeat (destruct Hop as [<- | Hop]; [reflexivity|]). destruct Hop.
  - intros oa ob a b -> -> _ _. repeat split; intros; reflexivity.
Qed.

Lemma arithmetic_reads_two_arguments_witness :
  ns_call (fun _ => Throw OutOfFuel) "/"
    (MalInt 0 7 :: MalStr 1 "x" :: [MalInt 2 9; MalNil 3]) empty_heap
  = ns_call (fun _ => Throw OutOfFuel) "/" [MalInt 0 7; MalStr 1 "x"]
      empty_heap
  ∧ ns_call (fun _ => Throw OutOfFuel) "*"
      (MalInt 0 0 :: MalInt 1 (-5) :: [MalInt 2 9; MalNil 3]) empty_heap
    = (Ok (MalInt 0 NegZero), bump empty_heap)
  ∧ ns_call (fun _ => Throw OutOfFuel) ">="
      (MalInt 0 0 :: MalInt 1 (-5) :: [MalInt 2 9; MalNil 3]) empty_heap
    = (Ok (MalBool 0 true), bump empty_heap).
Proof.
  split.
  - apply (proj1 (arithmetic_reads_two_arguments (fun _ => Throw OutOfFuel)
                    (MalInt 0 7) (MalStr 1 "x") [MalInt 2 9; MalNil 3]
                    empty_heap)).
    cbn [In]. do 3 right. left. reflexivity.
  - pose proof (proj2 (arithmetic_reads_two_arguments
                         (fun _ => Throw OutOfFuel) (MalInt 0 0)
                         (MalInt 1 (-5)) [MalInt 2 9; MalNil 3] empty_heap)
                      0%nat 1%nat 0%Z (-5)%Z eq_refl eq_refl) as H.
    unfold number.safe_integer, number.MAX_SAFE_INTEGER in H.
    destruct H as (_ & _ & Hmul & _ & _ & _ & Hge); [lia | lia |].
    split; [apply Hmul; lia | exact Hge].
Defined.

(** X24: [(throw e)] evaluates [e] and raises the resulting Value itself as
    the error, unchanged; nothing of the call is evaluated after it. *)
Theorem throw_raises_the_value (fuel depth : nat) (o o1 : oid) (e : MalType)
    (env : Env) (h h1 : Heap) (ofn rf : oid) (v : MalType) :
  envM.find h env "throw" = Some (MalFnNative ofn rf "throw") →
  eval_ (S fuel) depth e env h = (Ok v, h1) →
  eval_ (S (S fuel)) (S depth) (MalList o [MalSym o1 "throw"; e]) env h
  = (Throw (Raised v), bump h1).
Proof.
  intros Hf He.
  rewrite (eval_native_step (S fuel) (S depth) o (MalSym o1 "throw") [e]
             env h (bump h1) (next_oid h1) ofn rf "throw" [v]
             (ns_call (toFnReg fuel (S depth)) "throw"));
    [ reflexivity | reflexivity | reflexivity | | reflexivity ].
  cbn [eval_ast core.mapM nested]. unfold bind.
  rewrite (eval_bound_symbol _ _ _ _ _ _ _ Hf), He. reflexivity.
Qed.

Lemma throw_raises_the_value_witness :
  eval_ 2 1 (MalList 9 [MalSym 1 "throw"; MalStr 2 "boom"]) root_env root_heap
  = (Throw (Raised (MalStr 2 "boom")), bump root_heap).
Proof.
  apply (throw_raises_the_value 0 0 9 1 (MalStr 2 "boom") root_env root_heap
           root_heap 2 1 (MalStr 2 "boom")).
  - vm_compute. reflexivity.
  - reflexivity.
Defined.
